(** * test-gendemo: validation, repair and retry pipeline

    A shallow embedding of [app/services/validator.py],
    [app/services/generator.py] and [app/core/models.py], together with the
    parts of Python's [re] and [json] modules these functions call.

    Python strings are sequences of Unicode code points; they are modelled
    as lists of code points ([N]).  Exceptions are modelled by a result
    type. *)

From Stdlib Require Import NArith ZArith Bool Ascii String Lia Arith List.
Import ListNotations.

Set Default Goal Selector "!".
Set Warnings "-register-all".

(** ** Python strings *)

(** A code point, and a Python [str]. *)
Abbreviation char := N (only parsing).
Abbreviation str := (list N) (only parsing).

(** ASCII literal of the source text as a Python string. *)
Definition lit (x : string) : str :=
  List.map N_of_ascii (list_ascii_of_string x).
Arguments lit x%_string.

Definition QUOTE : char := 34%N.
Definition BACKSLASH : char := 92%N.
Definition NEWLINE : char := 10%N.

(** ASCII literal in which an apostrophe stands for the double quote, as in
    the [replace] of the test-suite fixture. *)
Definition qlit (x : string) : str :=
  List.map (fun c => if N.eqb c 39%N then QUOTE else c) (lit x).
Arguments qlit x%_string.

Definition str_eqb (a b : str) : bool :=
  if list_eq_dec N.eq_dec a b then true else false.

Lemma str_eqb_eq (a b : str) : str_eqb a b = true <-> a = b.
Proof.
  unfold str_eqb. destruct (list_eq_dec N.eq_dec a b); split; congruence.
Qed.

(** [s.startswith(p)] *)
Fixpoint startswith (p s : str) : bool :=
  match p, s with
  | [], _ => true
  | _ :: _, [] => false
  | a :: p', b :: s' => N.eqb a b && startswith p' s'
  end.

(** [p in s] for strings: some suffix of [s] starts with [p]. *)
Fixpoint contains (p s : str) : bool :=
  startswith p s ||
  match s with
  | [] => false
  | _ :: t => contains p t
  end.

(** [str.isspace] on one code point; the same set is matched by [\s] in a
    [str] pattern. *)
Definition isspace (c : char) : bool :=
  ((9 <=? c) && (c <=? 13) || (28 <=? c) && (c <=? 32) || (c =? 133)
   || (c =? 160) || (c =? 5760) || (8192 <=? c) && (c <=? 8202)
   || (c =? 8232) || (c =? 8233) || (c =? 8239) || (c =? 8287)
   || (c =? 12288))%N.

Fixpoint lstrip (s : str) : str :=
  match s with
  | [] => []
  | c :: t => if isspace c then lstrip t else s
  end.

Definition rstrip (s : str) : str := rev (lstrip (rev s)).

(** [s.strip()] *)
Definition strip (s : str) : str := rstrip (lstrip s).

(** ** The fragment of [re] used by the program

    Backtracking matcher in continuation-passing style: greedy
    quantifiers, ordered alternation, one capture group.  The continuation
    receives the text of group 1 (if it took part in the match) and the
    rest of the subject. *)

Inductive regex : Type :=
| Eps
| Chr (p : char -> bool)
| Seq (r1 r2 : regex)
| Alt (r1 r2 : regex)
| Star (r : regex)
| Eos
| Grp (r : regex).

Definition Opt (r : regex) : regex := Alt r Eps.

Definition Lit (l : str) : regex :=
  fold_right (fun c r => Seq (Chr (N.eqb c)) r) Eps l.

Definition is_char (c : char) : char -> bool := N.eqb c.
Definition not_in (l : list char) : char -> bool :=
  fun c => negb (existsb (N.eqb c) l).
Definition one_of (l : list char) : char -> bool :=
  fun c => existsb (N.eqb c) l.
(** [.] without DOTALL: anything but a newline. *)
Definition dot : char -> bool := fun c => negb (N.eqb c NEWLINE).

(** Concatenation of a sequence of patterns. *)
Definition seqs (l : list regex) : regex := fold_right Seq Eps l.

Section Matcher.
Variable R : Type.

Fixpoint rmatch (r : regex) (s : str) (g : option str)
         (k : option str -> str -> option R) {struct r} : option R :=
  match r with
  | Eps => k g s
  | Chr p =>
      match s with
      | c :: t => if p c then k g t else None
      | [] => None
      end
  | Seq r1 r2 => rmatch r1 s g (fun g' s' => rmatch r2 s' g' k)
  | Alt r1 r2 =>
      match rmatch r1 s g k with
      | Some x => Some x
      | None => rmatch r2 s g k
      end
  | Star r1 =>
      (fix star (n : nat) (s : str) (g : option str) {struct n} : option R :=
         match n with
         | O => k g s
         | S n' =>
             match rmatch r1 s g
                     (fun g' s' =>
                        if Nat.ltb (length s') (length s)
                        then star n' s' g' else None) with
             | Some x => Some x
             | None => k g s
             end
         end) (length s) s g
  | Eos =>
      (* [$]: at the end, or just before a newline that ends the text *)
      match s with
      | [] => k g s
      | [c] => if N.eqb c NEWLINE then k g s else None
      | _ => None
      end
  | Grp r1 =>
      rmatch r1 s g
        (fun _ s' => k (Some (firstn (length s - length s') s)) s')
  end.
End Matcher.
Arguments rmatch {R} r s g k.

(** A match of [r] starting exactly at the head of [s]: group 1 and the
    text after the match. *)
Definition match_at (r : regex) (s : str) : option (option str * str) :=
  rmatch r s None (fun g s' => Some (g, s')).

Section Sub.
Variable r : regex.
(** The replacement, as a function of group 1. *)
Variable repl : option str -> str.

(** [re.sub]: leftmost non-overlapping matches, scanned left to right.
    [skip] counts the characters of the current match that are still to
    be dropped.  None of the program's patterns matches the empty
    string; for completeness an empty match inserts the replacement and
    copies one character. *)
Fixpoint sub_from (skip : nat) (s : str) : str :=
  match s with
  | [] =>
      match match_at r [] with
      | Some (g, _) => repl g
      | None => []
      end
  | c :: t =>
      match skip with
      | S k => sub_from k t
      | O =>
          match match_at r s with
          | Some (g, s') =>
              match length s - length s' with
              | O => repl g ++ c :: sub_from 0 t
              | S n => repl g ++ sub_from n t
              end
          | None => c :: sub_from 0 t
          end
      end
  end.

Definition re_sub (s : str) : str := sub_from 0 s.
End Sub.

Definition repl_empty : option str -> str := fun _ => [].
(** The template [\1]. *)
Definition repl_group1 : option str -> str :=
  fun g => match g with Some x => x | None => [] end.

(** ** validator.py: strip_fences *)

Definition FENCE : str := lit "```".

(** The pattern [```(?:json)?|```]. *)
Definition FENCE_RE : regex :=
  Alt (Seq (Lit FENCE) (Opt (Lit (lit "json")))) (Lit FENCE).

(** The substitution of [strip_fences], before the [strip]. *)
Definition remove_fences (s : str) : str := re_sub FENCE_RE repl_empty s.

Definition strip_fences (raw : str) : str :=
  strip (remove_fences raw).

Definition BACKQUOTE : char := 96%N.


(** ** Exceptions and results *)

(** What an [LLMParseError] message is built from. *)
Inductive parse_detail : Type :=
| StructuralValidationFailed (cause : string)
| CouldNotBeParsed (stop_reason : str) (cause : string) (raw_prefix : str)
| GenerationFailed.

Inductive exn : Type :=
| StopIteration
| JSONDecodeError (msg : string)
| RecursionError
| TypeError (msg : string)
| ValidationError (msg : string)
| LLMParseError (d : parse_detail)
| LLMTimeoutError
| LLMNetworkError
| LLMAPIError.

Inductive res (A : Type) : Type :=
| Ok (a : A)
| Raise (e : exn).
Arguments Ok {A} a.
Arguments Raise {A} e.

Definition bind {A B} (m : res A) (f : A -> res B) : res B :=
  match m with
  | Ok a => f a
  | Raise e => Raise e
  end.

Notation "'let*' x ':=' m 'in' f" := (bind m (fun x => f))
  (at level 10, x pattern, m at level 100, f at level 200).

(** ** The fragment of [json] used by the program *)

Inductive json : Type :=
| JNull
| JBool (b : bool)
| JInt (z : Z)
| JFloat (lexeme : str)   (* [float(lexeme)] *)
| JNaN
| JInfinity
| JNegInfinity
| JStr (s : str)
| JArr (l : list json)
| JObj (d : list (str * json)).

(** Python dictionaries with string keys: keys are unique and kept in the
    order of their first insertion. *)
Fixpoint dict_set (k : str) (v : json) (d : list (str * json)) :
  list (str * json) :=
  match d with
  | [] => [(k, v)]
  | (k', v') :: d' =>
      if str_eqb k k' then (k, v) :: d' else (k', v') :: dict_set k v d'
  end.

Fixpoint dict_get (k : str) (d : list (str * json)) : option json :=
  match d with
  | [] => None
  | (k', v) :: d' => if str_eqb k k' then Some v else dict_get k d'
  end.

(** [dict(pairs)] *)
Definition dict_of_pairs (pairs : list (str * json)) : list (str * json) :=
  fold_left (fun d kv => dict_set (fst kv) (snd kv) d) pairs [].

(** [WHITESPACE.match(s, end).end()] with WHITESPACE = [[ \t\n\r]*] *)
Definition is_json_ws (c : char) : bool :=
  ((c =? 32) || (c =? 9) || (c =? 10) || (c =? 13))%N.

Fixpoint skip_ws (s : str) : str :=
  match s with
  | [] => []
  | c :: t => if is_json_ws c then skip_ws t else s
  end.

Definition is_digit (c : char) : bool := ((48 <=? c) && (c <=? 57))%N.

Definition hexval (c : char) : option N :=
  (if (48 <=? c) && (c <=? 57) then Some (c - 48)
   else if (97 <=? c) && (c <=? 102) then Some (c - 87)
   else if (65 <=? c) && (c <=? 70) then Some (c - 55)
   else None)%N.

(** Four hexadecimal digits after [\u]. *)
Definition decode_uXXXX (s : str) : option (N * str) :=
  match s with
  | a :: b :: c :: d :: t =>
      match hexval a, hexval b, hexval c, hexval d with
      | Some x, Some y, Some z, Some w =>
          Some (((x * 16 + y) * 16 + z) * 16 + w, t)%N
      | _, _, _, _ => None
      end
  | _ => None
  end.

(** The table BACKSLASH of json.decoder. *)
Definition backslash_escape (esc : char) : option char :=
  (if esc =? 34 then Some 34
   else if esc =? 92 then Some 92
   else if esc =? 47 then Some 47
   else if esc =? 98 then Some 8
   else if esc =? 102 then Some 12
   else if esc =? 110 then Some 10
   else if esc =? 114 then Some 13
   else if esc =? 116 then Some 9
   else None)%N.

(** [scanstring(s, end, strict=True)], started after the opening quote:
    the decoded content and the text after the closing quote. *)
Fixpoint scanstring (fuel : nat) (s : str) : res (str * str) :=
  match fuel with
  | O => Raise (JSONDecodeError "Unterminated string starting at")
  | S fuel' =>
      match s with
      | [] => Raise (JSONDecodeError "Unterminated string starting at")
      | c :: t =>
          if N.eqb c QUOTE then Ok ([], t)
          else if N.eqb c BACKSLASH then
            match t with
            | [] => Raise (JSONDecodeError "Unterminated string starting at")
            | esc :: t' =>
                if N.eqb esc 117%N then
                  match decode_uXXXX t' with
                  | None => Raise (JSONDecodeError "Invalid \uXXXX escape")
                  | Some (uni, t2) =>
                      let single :=
                        let* (content, rest) := scanstring fuel' t2 in
                        Ok (uni :: content, rest) in
                      if ((55296 <=? uni) && (uni <=? 56319))%N
                         && startswith [BACKSLASH; 117%N] t2
                      then
                        match decode_uXXXX (skipn 2 t2) with
                        | None =>
                            Raise (JSONDecodeError "Invalid \uXXXX escape")
                        | Some (uni2, t4) =>
                            if ((56320 <=? uni2) && (uni2 <=? 57343))%N
                            then
                              let* (content, rest) := scanstring fuel' t4 in
                              Ok ((65536 + (N.lor (N.shiftl (uni - 55296) 10)
                                                  (uni2 - 56320)))%N
                                    :: content, rest)
                            else single
                        end
                      else single
                  end
                else
                  match backslash_escape esc with
                  | None => Raise (JSONDecodeError "Invalid \escape")
                  | Some ch =>
                      let* (content, rest) := scanstring fuel' t' in
                      Ok (ch :: content, rest)
                  end
            end
          else if (c <? 32)%N then
            Raise (JSONDecodeError "Invalid control character at")
          else
            let* (content, rest) := scanstring fuel' t in
            Ok (c :: content, rest)
      end
  end.

(** NUMBER_RE of json.scanner matched at the head of [s]: an optional
    minus sign and an integer without leading zeros (group 1), an optional
    fraction (group 2), an optional exponent (group 3).  The result holds
    the three groups and the remaining text. *)
Fixpoint span_digits (s : str) : str * str :=
  match s with
  | [] => ([], [])
  | c :: t =>
      if is_digit c
      then let (d, r) := span_digits t in (c :: d, r)
      else ([], s)
  end.

Definition match_integer (s : str) : option (str * str) :=
  let (sign, s1) :=
    match s with
    | c :: t => if N.eqb c 45%N then ([c], t) else ([], s)
    | [] => ([], s)
    end in
  match s1 with
  | c :: t =>
      if N.eqb c 48%N then Some (sign ++ [c], t)
      else if is_digit c
           then let (d, r) := span_digits t in Some (sign ++ c :: d, r)
           else None
  | [] => None
  end.

Definition match_frac (s : str) : str * str :=
  match s with
  | c :: t =>
      if N.eqb c 46%N then
        match span_digits t with
        | ([], _) => ([], s)
        | (d, r) => (c :: d, r)
        end
      else ([], s)
  | [] => ([], s)
  end.

Definition match_exp (s : str) : str * str :=
  match s with
  | c :: t =>
      if N.eqb c 101%N || N.eqb c 69%N then
        let (sign, t1) :=
          match t with
          | c' :: t' =>
              if N.eqb c' 45%N || N.eqb c' 43%N then ([c'], t') else ([], t)
          | [] => ([], t)
          end in
        match span_digits t1 with
        | ([], _) => ([], s)
        | (d, r) => (c :: sign ++ d, r)
        end
      else ([], s)
  | [] => ([], s)
  end.

Definition match_number (s : str) : option (str * str * str * str) :=
  match match_integer s with
  | None => None
  | Some (integer, s1) =>
      let (frac, s2) := match_frac s1 in
      let (exp, s3) := match_exp s2 in
      Some (integer, frac, exp, s3)
  end.

(** [int(integer)] on a lexeme of NUMBER_RE's first group. *)
Definition int_of_lexeme (l : str) : Z :=
  let digits (d : str) : Z :=
    fold_left (fun acc c => acc * 10 + Z.of_N (c - 48))%Z d 0%Z in
  match l with
  | c :: t => if N.eqb c 45%N then (- digits t)%Z else digits l
  | [] => 0%Z
  end.

Definition is_nil {A} (l : list A) : bool :=
  match l with [] => true | _ => false end.

(** [StopIteration] of the scanner becomes "Expecting value". *)
Definition expecting_value {A} (m : res A) : res A :=
  match m with
  | Raise StopIteration => Raise (JSONDecodeError "Expecting value")
  | _ => m
  end.

(** [scan_once], [JSONObject] and [JSONArray] of json.scanner and
    json.decoder.  Each takes the text from the current index on and
    returns the value with the text after it.  [fuel] bounds the number
    of nested calls; every call consumes a character first. *)
Fixpoint scan_once (fuel : nat) (s : str) : res (json * str) :=
  match fuel with
  | O => Raise RecursionError
  | S fuel' =>
      match s with
      | [] => Raise StopIteration
      | nextchar :: t =>
          if N.eqb nextchar QUOTE then
            let* (v, r) := scanstring (length t) t in Ok (JStr v, r)
          else if N.eqb nextchar 123%N then JSONObject fuel' t
          else if N.eqb nextchar 91%N then JSONArray fuel' t
          else if startswith (lit "null") s then Ok (JNull, skipn 4 s)
          else if startswith (lit "true") s then Ok (JBool true, skipn 4 s)
          else if startswith (lit "false") s then Ok (JBool false, skipn 5 s)
          else
            match match_number s with
            | Some (integer, frac, exp, r) =>
                if is_nil frac && is_nil exp
                then Ok (JInt (int_of_lexeme integer), r)
                else Ok (JFloat (integer ++ frac ++ exp), r)
            | None =>
                if startswith (lit "NaN") s then Ok (JNaN, skipn 3 s)
                else if startswith (lit "Infinity") s
                     then Ok (JInfinity, skipn 8 s)
                else if startswith (lit "-Infinity") s
                     then Ok (JNegInfinity, skipn 9 s)
                else Raise StopIteration
            end
      end
  end

(** After the opening brace. *)
with JSONObject (fuel : nat) (s : str) : res (json * str) :=
  match fuel with
  | O => Raise RecursionError
  | S fuel' =>
      match skip_ws s with
      | nextchar :: t =>
          if N.eqb nextchar 125%N then Ok (JObj [], t)
          else if N.eqb nextchar QUOTE then object_pairs fuel' t []
          else Raise (JSONDecodeError
                 "Expecting property name enclosed in double quotes")
      | [] => Raise (JSONDecodeError
                "Expecting property name enclosed in double quotes")
      end
  end

(** The [while True] of JSONObject, entered after the opening quote of a
    key, with the pairs read so far. *)
with object_pairs (fuel : nat) (s : str) (pairs : list (str * json)) :
  res (json * str) :=
  match fuel with
  | O => Raise RecursionError
  | S fuel' =>
      let* (key, s1) := scanstring (length s) s in
      match skip_ws s1 with
      | colon :: s2 =>
          if N.eqb colon 58%N then
            let* (value, s3) := expecting_value (scan_once fuel' (skip_ws s2)) in
            let pairs' := pairs ++ [(key, value)] in
            match skip_ws s3 with
            | nextchar :: s4 =>
                if N.eqb nextchar 125%N
                then Ok (JObj (dict_of_pairs pairs'), s4)
                else if N.eqb nextchar 44%N then
                  match skip_ws s4 with
                  | q :: s5 =>
                      if N.eqb q QUOTE then object_pairs fuel' s5 pairs'
                      else Raise (JSONDecodeError
                        "Expecting property name enclosed in double quotes")
                  | [] => Raise (JSONDecodeError
                        "Expecting property name enclosed in double quotes")
                  end
                else Raise (JSONDecodeError "Expecting ',' delimiter")
            | [] => Raise (JSONDecodeError "Expecting ',' delimiter")
            end
          else Raise (JSONDecodeError "Expecting ':' delimiter")
      | [] => Raise (JSONDecodeError "Expecting ':' delimiter")
      end
  end

(** After the opening bracket. *)
with JSONArray (fuel : nat) (s : str) : res (json * str) :=
  match fuel with
  | O => Raise RecursionError
  | S fuel' =>
      match skip_ws s with
      | nextchar :: t =>
          if N.eqb nextchar 93%N then Ok (JArr [], t)
          else array_values fuel' (skip_ws s) []
      | [] => array_values fuel' [] []
      end
  end

(** The [while True] of JSONArray, with the values read so far. *)
with array_values (fuel : nat) (s : str) (values : list json) :
  res (json * str) :=
  match fuel with
  | O => Raise RecursionError
  | S fuel' =>
      let* (value, s1) := expecting_value (scan_once fuel' s) in
      let values' := values ++ [value] in
      match skip_ws s1 with
      | nextchar :: s2 =>
          if N.eqb nextchar 93%N then Ok (JArr values', s2)
          else if N.eqb nextchar 44%N
               then array_values fuel' (skip_ws s2) values'
               else Raise (JSONDecodeError "Expecting ',' delimiter")
      | [] => Raise (JSONDecodeError "Expecting ',' delimiter")
      end
  end.

(** [json.loads(s)] for a [str] argument: [JSONDecoder.decode]. *)
Definition json_loads (s : str) : res json :=
  if startswith [65279%N] s
  then Raise (JSONDecodeError "Unexpected UTF-8 BOM (decode using utf-8-sig)")
  else
    let* (obj, rest) :=
      expecting_value (scan_once (3 * length s + 3) (skip_ws s)) in
    match skip_ws rest with
    | [] => Ok obj
    | _ :: _ => Raise (JSONDecodeError "Extra data")
    end.

(** ** core/models.py: the schema of the LLM output *)

Record TestCase : Type := mkTestCase {
  title : str;
  preconditions : str;
  steps : list str;
  expected_result : str
}.

Record LLMOutput : Type := mkLLMOutput {
  test_cases : list TestCase
}.

(** A surrogate code point: a Python [str] holding one is not valid
    Unicode text and is refused by the string validator. *)
Definition is_surrogate (c : char) : bool :=
  ((55296 <=? c) && (c <=? 57343))%N.

(** A field of type [str] with [Field(min_length, max_length)]: only a
    string is accepted (no coercion of numbers), its length in code points
    is checked and the value is returned unchanged. *)
Definition validate_str (min_length max_length : nat) (v : json) : res str :=
  match v with
  | JStr s =>
      if existsb is_surrogate s
      then Raise (ValidationError "Input should be a valid string")
      else if length s <? min_length
      then Raise (ValidationError "String should have at least min_length characters")
      else if max_length <? length s
      then Raise (ValidationError "String should have at most max_length characters")
      else Ok s
  | _ => Raise (ValidationError "Input should be a valid string")
  end.

(** An item of [List[str]]: a string, without length bounds. *)
Definition validate_plain_str (v : json) : res str :=
  match v with
  | JStr s =>
      if existsb is_surrogate s
      then Raise (ValidationError "Input should be a valid string")
      else Ok s
  | _ => Raise (ValidationError "Input should be a valid string")
  end.

Fixpoint validate_items {A} (f : json -> res A) (l : list json) :
  res (list A) :=
  match l with
  | [] => Ok []
  | v :: l' =>
      let* a := f v in
      let* r := validate_items f l' in
      Ok (a :: r)
  end.

(** A field of type [List[T]] with [Field(min_length, max_length)]
    ([max_length = None] when there is no upper bound). *)
Definition validate_list {A} (f : json -> res A) (min_length : nat)
           (max_length : option nat) (v : json) : res (list A) :=
  match v with
  | JArr l =>
      if length l <? min_length
      then Raise (ValidationError "List should have at least min_length items")
      else if match max_length with
              | Some m => m <? length l
              | None => false
              end
      then Raise (ValidationError "List should have at most max_length items")
      else validate_items f l
  | _ => Raise (ValidationError "Input should be a valid list")
  end.

(** The field validator [steps_not_empty]. *)
Definition steps_not_empty (v : list str) : res (list str) :=
  if existsb (fun s => is_nil (strip s)) v
  then Raise (ValidationError "Steps must not contain empty strings")
  else Ok v.

(** A required field of a model built from a dictionary. *)
Definition required (k : str) (d : list (str * json)) : res json :=
  match dict_get k d with
  | Some v => Ok v
  | None => Raise (ValidationError "Field required")
  end.

(** Validation of one [TestCase] from a parsed value; keys that are not
    fields of the model are ignored. *)
Definition validate_TestCase (v : json) : res TestCase :=
  match v with
  | JObj d =>
      let* t := bind (required (lit "title") d) (validate_str 5 200) in
      let* p := bind (required (lit "preconditions") d) (validate_str 5 200) in
      let* s := bind (bind (required (lit "steps") d)
                        (validate_list validate_plain_str 2 (Some 4)))
                  steps_not_empty in
      let* e := bind (required (lit "expected_result") d)
                  (validate_str 10 200) in
      Ok (mkTestCase t p s e)
  | _ => Raise (ValidationError "Input should be a valid dictionary")
  end.

(** The model [LLMOutput] built from the unpacked [data]: unpacking
    anything but a dictionary raises [TypeError]. *)
Definition LLMOutput_of (data : json) : res LLMOutput :=
  match data with
  | JObj d =>
      let* tcs := bind (required (lit "test_cases") d)
                    (validate_list validate_TestCase 1 None) in
      Ok (mkLLMOutput tcs)
  | _ => Raise (TypeError "argument after ** must be a mapping")
  end.

(** ** validator.py *)

Definition COMMA : char := 44%N.

(** The five patterns of the repair, in the order of the source. *)

(** An optional comma, white space, a quote and the body of a string
    literal (with escapes) that runs to the end of the text. *)
Definition TRUNCATED_STRING_RE : regex :=
  seqs [Opt (Chr (is_char COMMA)); Star (Chr isspace); Chr (is_char QUOTE);
        Star (Alt (Chr (not_in [QUOTE; BACKSLASH]))
                  (Seq (Chr (is_char BACKSLASH)) (Chr dot)));
        Eos].

(** An optional comma, white space, a quoted key, white space, a colon
    and white space up to the end of the text. *)
Definition KEY_NO_VALUE_RE : regex :=
  seqs [Opt (Chr (is_char COMMA)); Star (Chr isspace); Chr (is_char QUOTE);
        Star (Chr (not_in [QUOTE])); Chr (is_char QUOTE);
        Star (Chr isspace); Chr (is_char 58%N); Star (Chr isspace); Eos].

(** An optional comma, white space, a quote and no further quote up to
    the end of the text. *)
Definition INCOMPLETE_KEY_RE : regex :=
  seqs [Opt (Chr (is_char COMMA)); Star (Chr isspace); Chr (is_char QUOTE);
        Star (Chr (not_in [QUOTE])); Eos].

(** A comma, then group 1: white space and a closing brace or bracket. *)
Definition COMMA_BEFORE_CLOSER_RE : regex :=
  seqs [Chr (is_char COMMA);
        Grp (Seq (Star (Chr isspace)) (Chr (one_of [125%N; 93%N])))].

(** A comma and white space up to the end of the text. *)
Definition TRAILING_COMMA_RE : regex :=
  seqs [Chr (is_char COMMA); Star (Chr isspace); Eos].

(** The rewrites of lines 62 to 70. *)
Definition strip_tail (s : str) : str :=
  let s := re_sub TRUNCATED_STRING_RE repl_empty s in
  let s := re_sub KEY_NO_VALUE_RE repl_empty s in
  let s := re_sub INCOMPLETE_KEY_RE repl_empty s in
  let s := re_sub COMMA_BEFORE_CLOSER_RE repl_group1 s in
  re_sub TRAILING_COMMA_RE repl_empty s.

(** The state of the delimiter count. *)
Record scan_state : Type := mkScan {
  braces : Z;
  brackets : Z;
  in_str : bool;
  esc : bool
}.

Definition scan_init : scan_state := mkScan 0 0 false false.

(** One iteration of [for ch in s]. *)
Definition scan_step (st : scan_state) (ch : char) : scan_state :=
  if esc st then mkScan (braces st) (brackets st) (in_str st) false
  else if N.eqb ch BACKSLASH && in_str st
  then mkScan (braces st) (brackets st) (in_str st) true
  else if N.eqb ch QUOTE
  then mkScan (braces st) (brackets st) (negb (in_str st)) (esc st)
  else if in_str st then st
  else if N.eqb ch 123%N
  then mkScan (braces st + 1) (brackets st) (in_str st) (esc st)
  else if N.eqb ch 125%N
  then mkScan (braces st - 1) (brackets st) (in_str st) (esc st)
  else if N.eqb ch 91%N
  then mkScan (braces st) (brackets st + 1) (in_str st) (esc st)
  else if N.eqb ch 93%N
  then mkScan (braces st) (brackets st - 1) (in_str st) (esc st)
  else st.

Definition count_unmatched (s : str) : scan_state :=
  fold_left scan_step s scan_init.

(** Lines 96 and 97: the closing brackets, then the closing braces. *)
Definition append_closers (s : str) : str :=
  let st := count_unmatched s in
  let s := s ++ repeat 93%N (Z.to_nat (Z.max 0 (brackets st))) in
  s ++ repeat 125%N (Z.to_nat (Z.max 0 (braces st))).

(** The text handed to the last [json.loads] when the direct parse has
    failed: lines 62 to 99 applied to the fence-stripped text. *)
Definition rewrite_truncated (s : str) : str :=
  re_sub COMMA_BEFORE_CLOSER_RE repl_group1 (append_closers (strip_tail s)).

Definition repair_truncated_json (raw : str) : res json :=
  let s := strip_fences raw in
  match json_loads s with
  | Ok v => Ok v
  | Raise (JSONDecodeError _) => json_loads (rewrite_truncated s)
  | Raise e => Raise e
  end.

Definition _validate_structure (data : json) : res LLMOutput :=
  match LLMOutput_of data with
  | Ok out => Ok out
  | Raise (ValidationError msg) =>
      Raise (LLMParseError (StructuralValidationFailed msg))
  | Raise (TypeError msg) =>
      Raise (LLMParseError (StructuralValidationFailed msg))
  | Raise e => Raise e
  end.

Definition LENGTH : str := lit "length".

(** Strategy B of [parse_and_validate]. *)
Definition repair_and_validate (raw cleaned stop_reason : str) :
  res (LLMOutput * bool) :=
  match repair_truncated_json cleaned with
  | Ok data =>
      let* out := _validate_structure data in
      Ok (out, true)
  | Raise (JSONDecodeError msg) =>
      Raise (LLMParseError (CouldNotBeParsed stop_reason msg (firstn 300 raw)))
  | Raise e => Raise e
  end.

Definition parse_and_validate (raw stop_reason : str) :
  res (LLMOutput * bool) :=
  let cleaned := strip_fences raw in
  if negb (str_eqb stop_reason LENGTH) then
    (* Strategy A: direct parse *)
    match json_loads cleaned with
    | Ok data =>
        let* out := _validate_structure data in
        Ok (out, false)
    | Raise (JSONDecodeError _) => repair_and_validate raw cleaned stop_reason
    | Raise e => Raise e
    end
  else repair_and_validate raw cleaned stop_reason.

(** ** core/config.py *)

Record Settings : Type := mkSettings {
  MAX_RETRIES : Z
}.

(** The values used when the environment sets nothing. *)
Definition default_settings : Settings := mkSettings 2.

(** ** services/llm_client.py and services/generator.py *)

Record LLMResponse : Type := mkLLMResponse {
  text : str;
  stop_reason : str;
  model : str
}.

(** The generation collaborator.  [generate] performs a network call; the
    model gives, for a user story, the outcome of the call number [n]
    (counted from 0) made through this client. *)
Definition LLMClient : Type := str -> nat -> res LLMResponse.

Section Generator.
(** The quality report and the scorer are kept abstract: the retry loop
    does not look into them. *)
Variable QualityReport : Type.
Variable score_test_cases : list TestCase -> res QualityReport.
Variable settings : Settings.

Record ResponseMeta : Type := mkResponseMeta {
  meta_model : str;
  meta_stop_reason : str;
  was_repaired : bool;
  attempts : Z
}.

Record GenerateResponse : Type := mkGenerateResponse {
  response_test_cases : list TestCase;
  quality : QualityReport;
  meta : ResponseMeta
}.

(** The body of the [try] for one attempt, given the outcome of
    [client.generate]. *)
Definition attempt_body (attempt : Z) (generated : res LLMResponse) :
  res GenerateResponse :=
  let* llm_resp := generated in
  let* (llm_output, repaired) :=
    parse_and_validate (text llm_resp) (stop_reason llm_resp) in
  let* q := score_test_cases (test_cases llm_output) in
  Ok (mkGenerateResponse (test_cases llm_output) q
        (mkResponseMeta (model llm_resp) (stop_reason llm_resp)
           repaired attempt)).

(** The [for] loop over the remaining attempt numbers.  [calls] is the
    number of calls made to the collaborator so far; the result comes
    with the number of calls made in total. *)
Fixpoint attempt_loop (user_story : str) (client : LLMClient)
         (todo : list Z) (last_error : option exn) (calls : nat) :
  res GenerateResponse * nat :=
  match todo with
  | [] =>
      (Raise (match last_error with
              | Some e => e
              | None => LLMParseError GenerationFailed
              end), calls)
  | attempt :: todo' =>
      match attempt_body attempt (client user_story calls) with
      | Ok r => (Ok r, S calls)
      | Raise (LLMParseError d) =>
          if (attempt <=? MAX_RETRIES settings)%Z
          then attempt_loop user_story client todo'
                 (Some (LLMParseError d)) (S calls)
          else (Raise (LLMParseError d), S calls)
      | Raise e => (Raise e, S calls)
      end
  end.

(** [range(1, settings.MAX_RETRIES + 2)] *)
Definition attempt_range : list Z :=
  List.map Z.of_nat (seq 1 (Z.to_nat (MAX_RETRIES settings + 1))).

Definition generate_test_cases (user_story : str) (client : LLMClient) :
  res GenerateResponse * nat :=
  attempt_loop user_story client attempt_range None 0.

(** The attempt numbers that remain after [j] calls. *)
Definition remaining (j : nat) : list Z :=
  List.map Z.of_nat
    (seq (1 + j) (Z.to_nat (MAX_RETRIES settings + 1) - j)).

(** The attempt made with call number [n] ends in a parse error. *)
Definition parse_fails (user_story : str) (client : LLMClient) (n : nat)
           (d : parse_detail) : Prop :=
  exists resp,
    client user_story n = Ok resp /\
    parse_and_validate (text resp) (stop_reason resp)
    = Raise (LLMParseError d).
End Generator.

(** ** Reference notions the claims are stated with *)

(** The text with every fence marker deleted, scanning from the left: a
    marker is three backquotes, together with the tag [json] when it
    follows at once. *)
Inductive fences_removed : str -> str -> Prop :=
| fr_nil : fences_removed [] []
| fr_tagged s out :
    fences_removed s out ->
    fences_removed (FENCE ++ lit "json" ++ s) out
| fr_plain s out :
    startswith (lit "json") s = false ->
    fences_removed s out ->
    fences_removed (FENCE ++ s) out
| fr_char c s out :
    startswith FENCE (c :: s) = false ->
    fences_removed s out ->
    fences_removed (c :: s) (c :: out).

(** No white space at either end. *)
Definition trimmed (s : str) : Prop := lstrip s = s /\ rstrip s = s.

(** A text wrapped in a markdown fence, with or without the tag. *)
Definition fenced_json (s : str) : str :=
  FENCE ++ lit "json" ++ NEWLINE :: s ++ NEWLINE :: FENCE.
Definition fenced_plain (s : str) : str :=
  FENCE ++ NEWLINE :: s ++ NEWLINE :: FENCE.

(** The field constraints of the schema, read on the parsed value:
    [conforms data out] says that [data] is an object whose [test_cases]
    is a non-empty list of objects holding the four fields within their
    bounds, and that [out] holds exactly these values. *)
Definition str_field (d : list (str * json)) (k : string) (lo hi : nat)
           (s : str) : Prop :=
  dict_get (lit k) d = Some (JStr s) /\ lo <= length s <= hi.

Definition conforms_TestCase (v : json) (tc : TestCase) : Prop :=
  exists d,
    v = JObj d /\
    str_field d "title" 5 200 (title tc) /\
    str_field d "preconditions" 5 200 (preconditions tc) /\
    dict_get (lit "steps") d = Some (JArr (List.map JStr (steps tc))) /\
    2 <= length (steps tc) <= 4 /\
    Forall (fun s => strip s <> []) (steps tc) /\
    str_field d "expected_result" 10 200 (expected_result tc).

(** The validators of the schema raise nothing but [ValidationError]. *)
Definition is_validation_error (e : exn) : Prop :=
  exists msg, e = ValidationError msg.

Definition conforms (data : json) (out : LLMOutput) : Prop :=
  exists d items,
    data = JObj d /\
    dict_get (lit "test_cases") d = Some (JArr items) /\
    items <> [] /\
    Forall2 conforms_TestCase items (test_cases out).

(** ** Sample inputs *)

(** A schema-conformant output with one test case. *)
Definition sample_raw : str :=
  qlit "{'test_cases': [{'title': 'Happy Path Login', 'preconditions': 'User has a verified account', 'steps': ['Enter valid email address', 'Enter correct password', 'Click the Login button'], 'expected_result': 'User is redirected to the dashboard'}]}".

Definition sample_case : TestCase :=
  mkTestCase (lit "Happy Path Login") (lit "User has a verified account")
    [lit "Enter valid email address"; lit "Enter correct password";
     lit "Click the Login button"]
    (lit "User is redirected to the dashboard").

Definition sample_out : LLMOutput := mkLLMOutput [sample_case].

Definition sample_data : json :=
  JObj [(lit "test_cases",
         JArr [JObj [(lit "title", JStr (title sample_case));
                     (lit "preconditions", JStr (preconditions sample_case));
                     (lit "steps", JArr (List.map JStr (steps sample_case)));
                     (lit "expected_result",
                      JStr (expected_result sample_case))]])].

(** A client whose first two answers are not JSON and whose third call
    times out, and one whose third answer is the sample. *)
Definition garbage : LLMResponse :=
  mkLLMResponse (lit "this is not json at all !!!") (lit "stop")
    (lit "gpt-4o-mini").

Definition flaky_client : LLMClient :=
  fun _ n => match n with
             | 0 | 1 => Ok garbage
             | _ => Raise LLMTimeoutError
             end.

(** ** Trimming, stated without the functions of the code *)

(** White space only. *)
Definition all_space (s : str) : Prop := Forall (fun c => isspace c = true) s.

(** Neither the first nor the last character is white space. *)
Definition no_space_at_ends (out : str) : Prop :=
  (forall c t, out = c :: t -> isspace c = false)
  /\ (forall t c, out = t ++ [c] -> isspace c = false).

(** [out] is [s] without the white space at its two ends. *)
Definition trim_of (s out : str) : Prop :=
  exists l r,
    s = l ++ out ++ r /\ all_space l /\ all_space r /\ no_space_at_ends out.

(** A fence with another language tag. *)
Definition python_fenced : str :=
  FENCE ++ lit "python" ++ NEWLINE :: lit "x = 1" ++ NEWLINE :: FENCE.

(** [subsequence out s]: [out] is [s] with some characters left out;
    nothing is added and the order is kept. *)
Inductive subsequence : str -> str -> Prop :=
| sub_nil : subsequence [] []
| sub_keep c out s : subsequence out s -> subsequence (c :: out) (c :: s)
| sub_drop c out s : subsequence out s -> subsequence out (c :: s).


(** ** Notions used in the proofs about the parsers *)

Definition UESC : str := [BACKSLASH; 117%N].

(** What the look-ahead for a surrogate pair reads of a consumed text. *)
Definition lookahead_inside (B : str) : Prop :=
  (forall x, startswith UESC (B ++ x) = startswith UESC B)
  /\ (startswith UESC B = true ->
      exists u B', forall x,
          decode_uXXXX (skipn 2 (B ++ x)) = Some (u, B' ++ x)).

(** The first character of [s] satisfies [p]. *)
Definition head_is (p : N -> bool) (s : str) : bool :=
  match s with
  | [] => false
  | c :: _ => p c
  end.

(** A text that cannot continue a number. *)
Definition ends_number (r : str) : bool :=
  negb (head_is (fun c => is_digit c || N.eqb c 46 || N.eqb c 101
                          || N.eqb c 69)%N r).

(** The last character is a digit. *)
Definition ends_digit (l : str) : Prop :=
  exists l0 c, l = l0 ++ [c] /\ is_digit c = true.

(** [scan_once] consumes [V ++ [c]], ends on the visible character [c],
    and returns the same value before any text that cannot continue a
    number. *)
Definition local_scan (f : nat) : Prop :=
  forall s v r,
    scan_once f s = Ok (v, r) ->
    exists V c,
      s = V ++ c :: r /\ isspace c = false
      /\ forall r', ends_number r' = true ->
                    scan_once f (V ++ c :: r') = Ok (v, r').

(** The parsers of the containers consume up to the closing [c]. *)
Definition local_upto (c : N) (p : str -> res (json * str)) : Prop :=
  forall s v r,
    p s = Ok (v, r) ->
    exists V, s = V ++ c :: r
              /\ forall r', p (V ++ c :: r') = Ok (v, r').

Definition fuel_enough (slack : nat) (p : nat -> str -> res (json * str)) (f : nat) : Prop :=
  forall f' s,
    3 * length s + slack <= f -> 3 * length s + slack <= f' ->
    p f s = p f' s.

(** The characters a JSON value can start with. *)
Definition value_start (c : N) : bool :=
  is_digit c || existsb (N.eqb c) [34; 123; 91; 110; 116; 102; 78; 73; 45]%N.

(** The recursion limit of the model is never reached. *)
Definition within_fuel (slack : nat) (p : nat -> str -> res (json * str))
           (f : nat) : Prop :=
  forall s, 3 * length s + slack <= f -> p f s <> Raise RecursionError.

(** The exceptions of the scanner. *)
Definition scan_err (e : exn) : Prop :=
  e = StopIteration \/ e = RecursionError \/ exists msg, e = JSONDecodeError msg.



(** The state of the delimiter count inside a string, outside an
    escape. *)
Definition in_string (b k : Z) : scan_state := mkScan b k true false.

(** * Proofs *)


(** ** Strings *)

Lemma startswith_app (p s : str) : startswith p (p ++ s) = true.
Proof.
  induction p as [|a p IH]; simpl; [reflexivity|].
  now rewrite N.eqb_refl.
Qed.

Lemma startswith_split (p s : str) :
  startswith p s = true -> s = p ++ skipn (length p) s.
Proof.
  revert s; induction p as [|a p IH]; intros s H; simpl in *; [reflexivity|].
  destruct s as [|b s]; [discriminate|].
  apply andb_true_iff in H as [E H]. apply N.eqb_eq in E. subst b.
  simpl. f_equal. now apply IH.
Qed.

(** A prefix test that succeeds on [x ++ c :: t] either succeeds on [x]
    already or reads [c]. *)
Lemma startswith_app_inv (p x : str) (c : char) (t : str) :
  startswith p (x ++ c :: t) = true ->
  startswith p x = true \/ In c p.
Proof.
  revert x; induction p as [|a p IH]; intros x H; simpl in *; [now left|].
  destruct x as [|b x]; simpl in *.
  - apply andb_true_iff in H as [E _]. apply N.eqb_eq in E. now right; left.
  - apply andb_true_iff in H as [E H]. rewrite E. simpl.
    destruct (IH _ H) as [H'|H']; [now left | now right; right].
Qed.

Lemma startswith_app_l (p x y : str) :
  startswith p x = true -> startswith p (x ++ y) = true.
Proof.
  revert x; induction p as [|a p IH]; intros x H; simpl in *; [reflexivity|].
  destruct x as [|b x]; [discriminate|]. simpl.
  apply andb_true_iff in H as [E H]. rewrite E. simpl. now apply IH.
Qed.

Lemma contains_cons (p : str) (c : char) (s : str) :
  contains p (c :: s) = startswith p (c :: s) || contains p s.
Proof. reflexivity. Qed.

Lemma contains_app_r (p x y : str) :
  contains p (x ++ y) = false -> contains p y = false.
Proof.
  induction x as [|c x IH]; simpl; [easy|].
  intros H. apply orb_false_iff in H as [_ H]. now apply IH.
Qed.

Lemma contains_app_l (p x y : str) :
  contains p (x ++ y) = false -> contains p x = false.
Proof.
  induction x as [|c x IH]; intros H.
  - destruct p as [|a p]; [|reflexivity].
    destruct y; simpl in H; discriminate.
  - rewrite contains_cons. simpl app in H. rewrite contains_cons in H.
    apply orb_false_iff in H as [H1 H2]. rewrite (IH H2), orb_false_r.
    destruct (startswith p (c :: x)) eqn:E; [|reflexivity].
    change (c :: x ++ y) with ((c :: x) ++ y) in H1.
    now rewrite (startswith_app_l _ _ y E) in H1.
Qed.

(** ** strip *)

Lemma lstrip_suffix (s : str) : exists w, s = w ++ lstrip s.
Proof.
  induction s as [|c s [w IH]]; simpl; [now exists []|].
  destruct (isspace c).
  - exists (c :: w). simpl. now f_equal.
  - now exists [].
Qed.

Lemma rstrip_prefix (s : str) : exists w, s = rstrip s ++ w.
Proof.
  unfold rstrip. destruct (lstrip_suffix (rev s)) as [w H].
  exists (rev w). rewrite <- rev_app_distr, <- H. now rewrite rev_involutive.
Qed.

Lemma lstrip_head (s : str) :
  match lstrip s with
  | [] => True
  | c :: _ => isspace c = false
  end.
Proof.
  induction s as [|c s IH]; simpl; [exact I|].
  destruct (isspace c) eqn:E; [exact IH | exact E].
Qed.

Lemma lstrip_fixed (s : str) :
  match s with [] => True | c :: _ => isspace c = false end ->
  lstrip s = s.
Proof. destruct s as [|c s]; simpl; [easy|]. now intros ->. Qed.

Lemma lstrip_idem (s : str) : lstrip (lstrip s) = lstrip s.
Proof. apply lstrip_fixed, lstrip_head. Qed.

Lemma rstrip_idem (s : str) : rstrip (rstrip s) = rstrip s.
Proof. unfold rstrip. now rewrite rev_involutive, lstrip_idem. Qed.

Lemma lstrip_rstrip (s : str) : lstrip s = s -> lstrip (rstrip s) = rstrip s.
Proof.
  intros H. apply lstrip_fixed.
  destruct (rstrip_prefix s) as [w Hw].
  destruct (rstrip s) as [|c r]; [exact I|].
  pose proof (lstrip_head s) as Hh. rewrite H, Hw in Hh. exact Hh.
Qed.

Lemma strip_trimmed (s : str) : trimmed (strip s).
Proof.
  unfold trimmed, strip. split.
  - apply lstrip_rstrip, lstrip_idem.
  - apply rstrip_idem.
Qed.

Lemma trimmed_strip (s : str) : trimmed s -> strip s = s.
Proof. intros [H1 H2]. unfold strip. now rewrite H1. Qed.

Lemma strip_idem (s : str) : strip (strip s) = strip s.
Proof. apply trimmed_strip, strip_trimmed. Qed.

Lemma contains_strip (p s : str) :
  contains p s = false -> contains p (strip s) = false.
Proof.
  intros H. unfold strip.
  destruct (lstrip_suffix s) as [w Hw].
  rewrite Hw in H. apply contains_app_r in H.
  destruct (rstrip_prefix (lstrip s)) as [w' Hw'].
  rewrite Hw' in H. now apply contains_app_l in H.
Qed.

Lemma rstrip_app_space (s : str) (c : char) :
  isspace c = true -> rstrip (s ++ [c]) = rstrip s.
Proof.
  intros H. unfold rstrip. rewrite rev_app_distr. simpl. now rewrite H.
Qed.

Lemma strip_app_space (s : str) (c : char) :
  isspace c = true -> strip (s ++ [c]) = strip s.
Proof.
  intros H. unfold strip. induction s as [|a s IH]; simpl.
  - now rewrite H.
  - destruct (isspace a); [exact IH|].
    now rewrite app_comm_cons, rstrip_app_space.
Qed.

Lemma strip_cons_space (s : str) (c : char) :
  isspace c = true -> strip (c :: s) = strip s.
Proof. intros H. unfold strip. simpl. now rewrite H. Qed.

(** ** The matcher on literals and the fence pattern *)

Lemma rmatch_Lit (R : Type) (l s : str) (g : option str)
      (k : option str -> str -> option R) :
  rmatch (Lit l) s g k
  = if startswith l s then k g (skipn (length l) s) else None.
Proof.
  revert s; induction l as [|a l IH]; intros s; [reflexivity|].
  change (Lit (a :: l)) with (Seq (Chr (N.eqb a)) (Lit l)).
  cbn [rmatch]. destruct s as [|b s]; [reflexivity|].
  simpl. destruct (N.eqb a b); [apply IH | reflexivity].
Qed.

Lemma match_at_fence (s : str) :
  match_at FENCE_RE s
  = if startswith FENCE s
    then Some (None, if startswith (lit "json") (skipn 3 s)
                     then skipn 7 s else skipn 3 s)
    else None.
Proof.
  unfold match_at, FENCE_RE, Opt. cbn [rmatch].
  rewrite !rmatch_Lit.
  destruct (startswith FENCE s); [|reflexivity].
  change (length FENCE) with 3.
  destruct (startswith (lit "json") (skipn 3 s)); [|reflexivity].
  now rewrite skipn_skipn.
Qed.

Lemma sub_from_skip (r : regex) (repl : option str -> str) (k : nat) (s : str) :
  sub_from r repl k s = sub_from r repl 0 (skipn k s).
Proof.
  revert s; induction k as [|k IH]; intros s; [reflexivity|].
  destruct s as [|c t]; [reflexivity|]. simpl. apply IH.
Qed.

Lemma remove_fences_nil : remove_fences [] = [].
Proof. reflexivity. Qed.

Lemma remove_fences_char (c : char) (s : str) :
  startswith FENCE (c :: s) = false ->
  remove_fences (c :: s) = c :: remove_fences s.
Proof.
  intros H. unfold remove_fences, re_sub. cbn [sub_from].
  now rewrite match_at_fence, H.
Qed.

Lemma remove_fences_plain (s : str) :
  startswith (lit "json") s = false ->
  remove_fences (FENCE ++ s) = remove_fences s.
Proof.
  intros H. unfold remove_fences, re_sub.
  change (FENCE ++ s) with (96 :: 96 :: 96 :: s)%N.
  cbn [sub_from]. rewrite match_at_fence.
  change (startswith FENCE (96 :: 96 :: 96 :: s)%N) with true.
  cbn [skipn]. rewrite H.
  replace (length (96 :: 96 :: 96 :: s)%N - length s) with 3
    by (cbn [length]; lia).
  cbn [repl_empty app]. now rewrite sub_from_skip.
Qed.

Lemma remove_fences_tagged (s : str) :
  remove_fences (FENCE ++ lit "json" ++ s) = remove_fences s.
Proof.
  unfold remove_fences, re_sub.
  change (FENCE ++ lit "json" ++ s)
    with (96 :: 96 :: 96 :: 106 :: 115 :: 111 :: 110 :: s)%N.
  cbn [sub_from]. rewrite match_at_fence.
  change (startswith FENCE (96 :: 96 :: 96 :: 106 :: 115 :: 111 :: 110 :: s)%N)
    with true.
  cbn [skipn].
  change (startswith (lit "json") (106 :: 115 :: 111 :: 110 :: s)%N)
    with (startswith [] s).
  cbn [startswith].
  replace (length (96 :: 96 :: 96 :: 106 :: 115 :: 111 :: 110 :: s)%N
           - length s) with 7 by (cbn [length]; lia).
  cbn [repl_empty app]. now rewrite sub_from_skip.
Qed.

(** [re.sub] with the fence pattern deletes the markers from the left. *)
Lemma remove_fences_spec (s : str) : fences_removed s (remove_fences s).
Proof.
  remember (length s) as n eqn:Hn. revert s Hn.
  induction n as [n IH] using lt_wf_ind. intros s Hn.
  destruct s as [|c t]; [constructor|].
  destruct (startswith FENCE (c :: t)) eqn:Hf.
  - apply startswith_split in Hf. change (length FENCE) with 3 in Hf.
    set (s3 := skipn 3 (c :: t)) in *.
    assert (Hlen : length (c :: t) = 3 + length s3).
    { rewrite Hf at 1. now rewrite length_app. }
    rewrite Hf. destruct (startswith (lit "json") s3) eqn:Hj.
    + apply startswith_split in Hj. change (length (lit "json")) with 4 in Hj.
      assert (length s3 = 4 + length (skipn 4 s3)).
      { rewrite Hj at 1. now rewrite length_app. }
      rewrite Hj, remove_fences_tagged. apply fr_tagged.
      apply (IH (length (skipn 4 s3))); [lia | reflexivity].
    + rewrite remove_fences_plain by exact Hj. apply fr_plain; [exact Hj|].
      apply (IH (length s3)); [lia | reflexivity].
  - rewrite remove_fences_char by exact Hf. apply fr_char; [exact Hf|].
    apply (IH (length t)); [simpl in Hn; lia | reflexivity].
Qed.

(** ** Properties of the fence removal, on its reference relation *)

Lemma backquotes_weaken (n : nat) (s : str) :
  startswith (repeat BACKQUOTE (S n)) s = true ->
  startswith (repeat BACKQUOTE n) s = true.
Proof.
  revert s; induction n as [|n IH]; intros s H; [reflexivity|].
  destruct s as [|b s]; [discriminate|].
  cbn [repeat startswith] in *.
  apply andb_true_iff in H as [E H]. rewrite E. simpl. now apply IH.
Qed.

Lemma backquotes_cons (n : nat) (s : str) :
  startswith (repeat BACKQUOTE n) s = true ->
  startswith (repeat BACKQUOTE n) (BACKQUOTE :: s) = true.
Proof.
  destruct n as [|n]; intros H; [reflexivity|].
  cbn [repeat startswith]. rewrite N.eqb_refl. simpl.
  now apply backquotes_weaken.
Qed.

(** One or two backquotes at the head of the output were at the head of
    the input. *)
Lemma fences_removed_head (s out : str) :
  fences_removed s out ->
  forall n, n <= 2 ->
            startswith (repeat BACKQUOTE n) out = true ->
            startswith (repeat BACKQUOTE n) s = true.
Proof.
  induction 1 as [|s out _ IH|s out _ _ IH|c s out _ _ IH]; intros n Hle Hn.
  - exact Hn.
  - destruct n as [|[|[|n]]]; try reflexivity. lia.
  - destruct n as [|[|[|n]]]; try reflexivity. lia.
  - destruct n as [|n]; [reflexivity|].
    cbn [repeat startswith] in *.
    apply andb_true_iff in Hn as [E Hn]. rewrite E. simpl.
    apply IH; [lia | exact Hn].
Qed.

Lemma fences_removed_no_fence (s out : str) :
  fences_removed s out -> contains FENCE out = false.
Proof.
  induction 1 as [|s out _ IH|s out _ _ IH|c s out Hc H IH];
    try assumption; [reflexivity|].
  rewrite contains_cons, IH, orb_false_r.
  destruct (startswith FENCE (c :: out)) eqn:E; [|reflexivity].
  change FENCE with (BACKQUOTE :: repeat BACKQUOTE 2) in *.
  cbn [startswith] in E, Hc.
  apply andb_true_iff in E as [E1 E2].
  rewrite E1 in Hc. cbn [andb] in Hc.
  rewrite (fences_removed_head s out H 2) in Hc; [discriminate | lia | exact E2].
Qed.

Lemma remove_fences_no_fence (s : str) :
  contains FENCE (remove_fences s) = false.
Proof. exact (fences_removed_no_fence _ _ (remove_fences_spec s)). Qed.

(** Without a marker there is nothing to remove. *)
Lemma remove_fences_id (s : str) :
  contains FENCE s = false -> remove_fences s = s.
Proof.
  induction s as [|c s IH]; intros H; [reflexivity|].
  rewrite contains_cons in H. apply orb_false_iff in H as [H1 H2].
  now rewrite remove_fences_char, IH.
Qed.

Lemma strip_fences_no_fence (s : str) :
  contains FENCE (strip_fences s) = false.
Proof. apply contains_strip, remove_fences_no_fence. Qed.

Lemma strip_fences_id (s : str) :
  contains FENCE s = false -> trimmed s -> strip_fences s = s.
Proof.
  intros H1 H2. unfold strip_fences.
  rewrite remove_fences_id by exact H1.
  now apply trimmed_strip.
Qed.

Lemma strip_fences_idem (s : str) :
  strip_fences (strip_fences s) = strip_fences s.
Proof.
  apply strip_fences_id; [apply strip_fences_no_fence | apply strip_trimmed].
Qed.

(** A character that occurs in no marker separates the text for the
    removal. *)
Lemma remove_fences_app (s : str) (c : char) (t : str) :
  ~ In c (FENCE ++ lit "json") ->
  remove_fences (s ++ c :: t) = remove_fences s ++ c :: remove_fences t.
Proof.
  intros Hc.
  assert (HcF : ~ In c FENCE) by (intros X; apply Hc, in_or_app; now left).
  assert (HcJ : ~ In c (lit "json"))
    by (intros X; apply Hc, in_or_app; now right).
  remember (length s) as n eqn:Hn. revert s Hn.
  induction n as [n IH] using lt_wf_ind. intros s Hn.
  destruct s as [|a s1].
  - simpl. apply remove_fences_char.
    destruct (startswith FENCE (c :: t)) eqn:E; [|reflexivity].
    destruct (startswith_app_inv FENCE [] c t E) as [X|X];
      [discriminate | contradiction].
  - destruct (startswith FENCE (a :: s1)) eqn:Hf.
    + apply startswith_split in Hf. change (length FENCE) with 3 in Hf.
      set (s3 := skipn 3 (a :: s1)) in *.
      assert (Hlen : length (a :: s1) = 3 + length s3).
      { rewrite Hf at 1. now rewrite length_app. }
      rewrite Hf, <- app_assoc.
      destruct (startswith (lit "json") s3) eqn:Hj.
      * apply startswith_split in Hj.
        change (length (lit "json")) with 4 in Hj.
        assert (length s3 = 4 + length (skipn 4 s3)).
        { rewrite Hj at 1. now rewrite length_app. }
        rewrite Hj, <- app_assoc, !remove_fences_tagged.
        apply (IH (length (skipn 4 s3))); [lia | reflexivity].
      * rewrite !remove_fences_plain; [| exact Hj |].
        -- apply (IH (length s3)); [lia | reflexivity].
        -- destruct (startswith (lit "json") (s3 ++ c :: t)) eqn:E;
             [|reflexivity].
           destruct (startswith_app_inv _ _ _ _ E) as [X|X];
             [congruence | contradiction].
    + simpl app. rewrite !remove_fences_char; [| exact Hf |].
      * simpl. f_equal. apply (IH (length s1)); [simpl in Hn; lia | reflexivity].
      * destruct (startswith FENCE (a :: s1 ++ c :: t)) eqn:E; [|reflexivity].
        destruct (startswith_app_inv FENCE (a :: s1) c t E) as [X|X];
          [congruence | contradiction].
Qed.

Lemma newline_not_in_marker : ~ In NEWLINE (FENCE ++ lit "json").
Proof. cbv. intuition discriminate. Qed.

Lemma newline_isspace : isspace NEWLINE = true.
Proof. reflexivity. Qed.

Lemma remove_fences_newline (t : str) :
  remove_fences (NEWLINE :: t) = NEWLINE :: remove_fences t.
Proof. exact (remove_fences_app [] NEWLINE t newline_not_in_marker). Qed.

Lemma remove_fences_closing (s : str) :
  remove_fences (s ++ NEWLINE :: FENCE) = remove_fences s ++ [NEWLINE].
Proof. exact (remove_fences_app s NEWLINE FENCE newline_not_in_marker). Qed.

Lemma strip_fences_fenced_json (s : str) :
  strip_fences (fenced_json s) = strip_fences s.
Proof.
  unfold strip_fences, fenced_json.
  rewrite remove_fences_tagged, remove_fences_newline, remove_fences_closing.
  rewrite strip_cons_space by apply newline_isspace.
  apply strip_app_space, newline_isspace.
Qed.

Lemma strip_fences_fenced_plain (s : str) :
  strip_fences (fenced_plain s) = strip_fences s.
Proof.
  unfold strip_fences, fenced_plain.
  rewrite remove_fences_plain by reflexivity.
  rewrite remove_fences_newline, remove_fences_closing.
  rewrite strip_cons_space by apply newline_isspace.
  apply strip_app_space, newline_isspace.
Qed.

(** ** [strip] against the reference notion of trimming *)

Lemma lstrip_split (s : str) : exists w, s = w ++ lstrip s /\ all_space w.
Proof.
  induction s as [|c s [w [IH Hw]]]; [exists []; split; [reflexivity | constructor]|].
  cbn [lstrip]. destruct (isspace c) eqn:E.
  - exists (c :: w). split; [cbn [app]; now f_equal | now constructor].
  - exists []. split; [reflexivity | constructor].
Qed.

Lemma all_space_rev (w : str) : all_space w -> all_space (rev w).
Proof.
  unfold all_space. rewrite !Forall_forall. intros H x Hx.
  apply H. now apply in_rev.
Qed.

Lemma rstrip_split (s : str) : exists w, s = rstrip s ++ w /\ all_space w.
Proof.
  unfold rstrip. destruct (lstrip_split (rev s)) as [w [H Hw]].
  exists (rev w). split; [|now apply all_space_rev].
  rewrite <- rev_app_distr, <- H. now rewrite rev_involutive.
Qed.

Lemma rstrip_last (s t : str) (c : N) :
  rstrip s = t ++ [c] -> isspace c = false.
Proof.
  unfold rstrip. intros H. apply (f_equal (@rev N)) in H.
  rewrite rev_involutive, rev_app_distr in H. cbn [rev app] in H.
  pose proof (lstrip_head (rev s)) as Hh. now rewrite H in Hh.
Qed.

Lemma strip_no_space_at_ends (s : str) : no_space_at_ends (strip s).
Proof.
  split.
  - intros c t H. destruct (strip_trimmed s) as [Hl _].
    pose proof (lstrip_head (strip s)) as Hh. rewrite Hl, H in Hh. exact Hh.
  - intros t c H. unfold strip in H. now apply rstrip_last in H.
Qed.

Lemma strip_trim_of (s : str) : trim_of s (strip s).
Proof.
  destruct (lstrip_split s) as [l [El Hl]].
  destruct (rstrip_split (lstrip s)) as [r [Er Hr]].
  exists l, r. split.
  - rewrite El at 1. f_equal. exact Er.
  - split; [exact Hl|]. split; [exact Hr | apply strip_no_space_at_ends].
Qed.

Lemma lstrip_all_space (w x : str) :
  all_space w -> lstrip (w ++ x) = lstrip x.
Proof.
  induction 1 as [|c w Hc _ IH]; [reflexivity|].
  cbn [app lstrip]. now rewrite Hc.
Qed.

Lemma rstrip_all_space (x w : str) :
  all_space w -> rstrip (x ++ w) = rstrip x.
Proof.
  intros Hw. unfold rstrip. rewrite rev_app_distr.
  now rewrite lstrip_all_space by now apply all_space_rev.
Qed.

Lemma rstrip_fixed (t : str) (c : N) :
  isspace c = false -> rstrip (t ++ [c]) = t ++ [c].
Proof.
  intros Hc. unfold rstrip. rewrite rev_app_distr. cbn [rev app lstrip].
  rewrite Hc. cbn [rev]. now rewrite rev_involutive.
Qed.

(** The trimmed form of a text is unique: it is what [strip] returns. *)
Lemma trim_of_strip (s out : str) : trim_of s out -> out = strip s.
Proof.
  intros [l [r [-> [Hl [Hr [Hfirst Hlast]]]]]]. unfold strip.
  rewrite lstrip_all_space by exact Hl.
  destruct out as [|c t].
  - cbn [app]. replace (lstrip r) with (@nil N); [reflexivity|].
    clear Hl. induction Hr as [|a r Ha _ IH]; [reflexivity|].
    cbn [lstrip]. now rewrite Ha.
  - cbn [app lstrip]. rewrite (Hfirst c t eq_refl).
    change (c :: t ++ r) with ((c :: t) ++ r).
    rewrite rstrip_all_space by exact Hr.
    destruct (@exists_last _ (c :: t) ltac:(discriminate)) as [t' [c' E]].
    rewrite E. symmetry. apply rstrip_fixed. now apply (Hlast t' c').
Qed.

(** The text left by the removal of the fences is unique: it is what the
    substitution returns. *)
Lemma fences_removed_unique (s out : str) :
  fences_removed s out -> out = remove_fences s.
Proof.
  induction 1 as [|s out _ IH|s out Hj _ IH|c s out Hc _ IH].
  - reflexivity.
  - now rewrite remove_fences_tagged.
  - now rewrite remove_fences_plain.
  - rewrite remove_fences_char by exact Hc. now f_equal.
Qed.

(** ** Schema validation *)

Lemma bind_Ok {A B} (m : res A) (f : A -> res B) (b : B) :
  bind m f = Ok b -> exists a, m = Ok a /\ f a = Ok b.
Proof. destruct m as [a|e]; simpl; [eauto | discriminate]. Qed.

Lemma bind_Raise {A B} (m : res A) (f : A -> res B) (e : exn) :
  bind m f = Raise e -> m = Raise e \/ exists a, m = Ok a /\ f a = Raise e.
Proof. destruct m as [a|e']; simpl; [eauto | intros [= ->]; now left]. Qed.

Ltac inv_bind H :=
  let a := fresh "a" in
  let Ha := fresh "Ha" in
  apply bind_Ok in H as [a [Ha H]].

Lemma required_Ok (k : str) (d : list (str * json)) (v : json) :
  required k d = Ok v -> dict_get k d = Some v.
Proof. unfold required. destruct (dict_get k d); now intros [= ->]. Qed.

Lemma validate_str_Ok (lo hi : nat) (v : json) (s : str) :
  validate_str lo hi v = Ok s -> v = JStr s /\ lo <= length s <= hi.
Proof.
  destruct v; simpl; try discriminate.
  destruct (existsb is_surrogate s0); [discriminate|].
  destruct (Nat.ltb_spec (length s0) lo); [discriminate|].
  destruct (Nat.ltb_spec hi (length s0)); [discriminate|].
  intros [= ->]. split; [reflexivity | lia].
Qed.

Lemma validate_items_Ok {A} (f : json -> res A) (P : json -> A -> Prop) :
  (forall v a, f v = Ok a -> P v a) ->
  forall l r, validate_items f l = Ok r -> Forall2 P l r.
Proof.
  intros Hf. induction l as [|v l IH]; intros r H; simpl in H.
  - injection H as <-. constructor.
  - inv_bind H. inv_bind H. injection H as <-.
    constructor; [now apply Hf | now apply IH].
Qed.

Lemma validate_items_length {A} (f : json -> res A) (l : list json)
      (r : list A) :
  validate_items f l = Ok r -> length r = length l.
Proof.
  intros H.
  apply (validate_items_Ok f (fun _ _ => True)) in H; [|easy].
  symmetry. now apply (Forall2_length H).
Qed.

Lemma validate_plain_strs_Ok (l : list json) (r : list str) :
  validate_items validate_plain_str l = Ok r -> l = List.map JStr r.
Proof.
  revert r; induction l as [|v l IH]; intros r H; simpl in H.
  - now injection H as <-.
  - inv_bind H. inv_bind H. injection H as <-. simpl.
    f_equal; [|now apply IH].
    destruct v; simpl in Ha; try discriminate.
    destruct (existsb is_surrogate s); [discriminate|]. now injection Ha as ->.
Qed.

Lemma steps_not_empty_Ok (v r : list str) :
  steps_not_empty v = Ok r -> r = v /\ Forall (fun s => strip s <> []) v.
Proof.
  unfold steps_not_empty.
  destruct (existsb (fun s => is_nil (strip s)) v) eqn:E; [discriminate|].
  intros [= <-]. split; [reflexivity|].
  apply Forall_forall. intros s Hs Hn.
  assert (X : existsb (fun s => is_nil (strip s)) v = true).
  { apply existsb_exists. exists s. split; [exact Hs | now rewrite Hn]. }
  congruence.
Qed.

Lemma str_field_Ok (d : list (str * json)) (k : string) (lo hi : nat)
      (s : str) :
  bind (required (lit k) d) (validate_str lo hi) = Ok s ->
  str_field d k lo hi s.
Proof.
  intros H. apply bind_Ok in H as [v [Hv H]].
  apply required_Ok in Hv. apply validate_str_Ok in H as [-> H].
  now split.
Qed.

Lemma validate_TestCase_Ok (v : json) (tc : TestCase) :
  validate_TestCase v = Ok tc -> conforms_TestCase v tc.
Proof.
  destruct v as [| | | | | | | | |d]; simpl; try discriminate.
  intros H. exists d. split; [reflexivity|].
  apply bind_Ok in H as [t [Ht H]]. apply bind_Ok in H as [p [Hp H]].
  apply bind_Ok in H as [s [Hs H]]. apply bind_Ok in H as [e [He H]].
  injection H as <-.
  cbn [title preconditions steps expected_result].
  apply str_field_Ok in Ht, Hp, He.
  apply bind_Ok in Hs as [l [Hl Hs]]. apply bind_Ok in Hl as [vs [Hvs Hl]].
  apply required_Ok in Hvs.
  apply steps_not_empty_Ok in Hs as [-> Hne].
  destruct vs as [| | | | | | | |items|]; simpl in Hl; try discriminate.
  destruct (Nat.ltb_spec (length items) 2); [discriminate|].
  destruct (Nat.ltb_spec 4 (length items)); [discriminate|].
  pose proof (validate_items_length _ _ _ Hl) as Hlen.
  apply validate_plain_strs_Ok in Hl. subst items.
  rewrite length_map in *.
  split; [exact Ht|]. split; [exact Hp|]. split; [exact Hvs|].
  split; [lia|]. split; [exact Hne | exact He].
Qed.

Lemma LLMOutput_of_Ok (data : json) (out : LLMOutput) :
  LLMOutput_of data = Ok out -> conforms data out.
Proof.
  destruct data as [| | | | | | | | |d]; simpl; try discriminate.
  intros H. apply bind_Ok in H as [tcs [Ht H]]. injection H as <-.
  apply bind_Ok in Ht as [v [Hv Ht]]. apply required_Ok in Hv.
  destruct v as [| | | | | | | |items|]; simpl in Ht; try discriminate.
  destruct (Nat.ltb_spec (length items) 1); [discriminate|].
  exists d, items. repeat split; try assumption.
  - intros ->. simpl in *. lia.
  - now apply (validate_items_Ok validate_TestCase conforms_TestCase
                 validate_TestCase_Ok).
Qed.

Lemma validate_str_Raise (lo hi : nat) (v : json) (e : exn) :
  validate_str lo hi v = Raise e -> is_validation_error e.
Proof.
  unfold validate_str, is_validation_error.
  destruct v; try (intros [= <-]; eauto).
  destruct (existsb is_surrogate s); [intros [= <-]; eauto|].
  destruct (length s <? lo); [intros [= <-]; eauto|].
  destruct (hi <? length s); [intros [= <-]; eauto | discriminate].
Qed.

Lemma validate_plain_str_Raise (v : json) (e : exn) :
  validate_plain_str v = Raise e -> is_validation_error e.
Proof.
  unfold validate_plain_str, is_validation_error.
  destruct v; try (intros [= <-]; eauto).
  destruct (existsb is_surrogate s); [intros [= <-]; eauto | discriminate].
Qed.

Lemma required_Raise (k : str) (d : list (str * json)) (e : exn) :
  required k d = Raise e -> is_validation_error e.
Proof.
  unfold required, is_validation_error.
  destruct (dict_get k d); [discriminate | intros [= <-]; eauto].
Qed.

Lemma validate_items_Raise {A} (f : json -> res A) :
  (forall v e, f v = Raise e -> is_validation_error e) ->
  forall l e, validate_items f l = Raise e -> is_validation_error e.
Proof.
  intros Hf. induction l as [|v l IH]; intros e H; simpl in H; [discriminate|].
  apply bind_Raise in H as [H|[a [_ H]]]; [now apply (Hf v)|].
  apply bind_Raise in H as [H|[r [_ H]]]; [now apply IH | discriminate].
Qed.

Lemma validate_list_Raise {A} (f : json -> res A) (lo : nat)
      (hi : option nat) :
  (forall v e, f v = Raise e -> is_validation_error e) ->
  forall v e, validate_list f lo hi v = Raise e -> is_validation_error e.
Proof.
  intros Hf v e. unfold validate_list.
  destruct v; try (intros [= <-]; unfold is_validation_error; eauto).
  destruct (length l <? lo);
    [intros [= <-]; unfold is_validation_error; eauto|].
  destruct (match hi with Some m => m <? length l | None => false end);
    [intros [= <-]; unfold is_validation_error; eauto|].
  now apply validate_items_Raise.
Qed.

Lemma steps_not_empty_Raise (v : list str) (e : exn) :
  steps_not_empty v = Raise e -> is_validation_error e.
Proof.
  unfold steps_not_empty, is_validation_error.
  destruct (existsb _ v); [intros [= <-]; eauto | discriminate].
Qed.

Create HintDb validators.

#[local] Hint Resolve validate_str_Raise validate_plain_str_Raise
  required_Raise steps_not_empty_Raise : validators.

Ltac raise_bind H :=
  repeat match type of H with
    | bind _ _ = Raise _ =>
        let a := fresh "a" in
        apply bind_Raise in H as [H|[a [_ H]]]
    end.

Lemma validate_TestCase_Raise (v : json) (e : exn) :
  validate_TestCase v = Raise e -> is_validation_error e.
Proof.
  unfold validate_TestCase.
  destruct v; try (intros [= <-]; unfold is_validation_error; eauto).
  intros H.
  apply bind_Raise in H as [H|[a1 [_ H]]].
  { raise_bind H; eauto with validators. }
  apply bind_Raise in H as [H|[a2 [_ H]]].
  { raise_bind H; eauto with validators. }
  apply bind_Raise in H as [H|[a3 [_ H]]].
  { raise_bind H; eauto with validators.
    eapply validate_list_Raise; [|exact H]. apply validate_plain_str_Raise. }
  apply bind_Raise in H as [H|[a4 [_ H]]].
  { raise_bind H; eauto with validators. }
  discriminate.
Qed.

Lemma LLMOutput_of_Raise (data : json) (e : exn) :
  LLMOutput_of data = Raise e ->
  exists msg, e = ValidationError msg \/ e = TypeError msg.
Proof.
  unfold LLMOutput_of.
  destruct data; try (intros [= <-]; eauto).
  intros H.
  assert (X : is_validation_error e).
  { apply bind_Raise in H as [H|[a1 [_ H]]]; [|discriminate].
    raise_bind H; eauto with validators.
    eapply validate_list_Raise; [|exact H]. apply validate_TestCase_Raise. }
  destruct X as [msg ->]. eauto.
Qed.

Lemma validate_structure_Ok (data : json) (out : LLMOutput) :
  _validate_structure data = Ok out -> LLMOutput_of data = Ok out.
Proof.
  unfold _validate_structure.
  destruct (LLMOutput_of data) as [o|[]]; congruence.
Qed.

Lemma validate_structure_total (data : json) :
  (exists out, _validate_structure data = Ok out)
  \/ (exists msg, _validate_structure data
                  = Raise (LLMParseError (StructuralValidationFailed msg))).
Proof.
  unfold _validate_structure.
  destruct (LLMOutput_of data) as [o|e] eqn:E; [left; eauto|].
  right. apply LLMOutput_of_Raise in E as [msg [-> | ->]]; eauto.
Qed.

(** C5.  Schema validation is all-or-nothing: a parsed value is accepted
    only if it is an object with a non-empty [test_cases] list in which
    every test case meets every field constraint, the accepted set holds
    the values of the input unchanged, and every other value is rejected
    with an [LLMParseError]. *)
Theorem validation_all_or_nothing :
  (forall data out,
      _validate_structure data = Ok out -> conforms data out)
  /\ (forall data,
         (forall out, ~ conforms data out) ->
         exists msg, _validate_structure data
                     = Raise (LLMParseError (StructuralValidationFailed msg))).
Proof.
  split.
  - intros data out H. now apply LLMOutput_of_Ok, validate_structure_Ok.
  - intros data Hno.
    destruct (validate_structure_total data) as [[out H]|H]; [|exact H].
    exfalso. apply (Hno out). now apply LLMOutput_of_Ok, validate_structure_Ok.
Qed.

Section GeneratorFacts.
Variable QualityReport : Type.
Variable score_test_cases : list TestCase -> res QualityReport.
Variable settings : Settings.
Variable user_story : str.
Variable client : LLMClient.

Let loop := attempt_loop QualityReport score_test_cases settings user_story client.
Let body := attempt_body QualityReport score_test_cases.
Let budget := Z.to_nat (MAX_RETRIES settings + 1).

Lemma attempt_body_parse_fails (attempt : Z) (n : nat) (d : parse_detail) :
  parse_fails user_story client n d ->
  body attempt (client user_story n) = Raise (LLMParseError d).
Proof.
  intros [resp [Hc Hp]]. unfold body, attempt_body.
  rewrite Hc. simpl. now rewrite Hp.
Qed.

Lemma remaining_step (j : nat) :
  j < budget -> remaining settings j = Z.of_nat (1 + j) :: remaining settings (S j).
Proof.
  intros H. unfold remaining. fold budget.
  replace (budget - j) with (S (budget - S j)) by lia.
  reflexivity.
Qed.

Lemma budget_bound (j : nat) :
  S j < budget -> (Z.of_nat (1 + j) <=? MAX_RETRIES settings)%Z = true.
Proof. unfold budget. intros H. apply Z.leb_le. lia. Qed.

Lemma budget_last (j : nat) :
  S j = budget -> (Z.of_nat (1 + j) <=? MAX_RETRIES settings)%Z = false.
Proof. unfold budget. intros H. apply Z.leb_gt. lia. Qed.

(** Attempts that end in a parse error, short of the last one, are
    followed by the next attempt. *)
Lemma loop_retries (k : nat) :
  k < budget ->
  (forall i, i < k -> exists d, parse_fails user_story client i d) ->
  forall j last, j <= k ->
    exists last',
      loop (remaining settings j) last j = loop (remaining settings k) last' k.
Proof.
  intros Hk Hfail j last Hj.
  remember (k - j) as m eqn:Hm. revert j last Hj Hm.
  induction m as [|m IH]; intros j last Hj Hm.
  - replace j with k by lia. now exists last.
  - destruct (Hfail j ltac:(lia)) as [d Hd].
    rewrite remaining_step by lia.
    destruct (IH (S j) (Some (LLMParseError d)) ltac:(lia) ltac:(lia))
      as [last' E].
    exists last'. rewrite <- E. unfold loop at 1. cbn [attempt_loop].
    fold body. rewrite (attempt_body_parse_fails _ j d Hd).
    now rewrite budget_bound by lia.
Qed.

Lemma loop_stops (k : nat) (last : option exn) (e : exn) :
  k < budget ->
  body (Z.of_nat (1 + k)) (client user_story k) = Raise e ->
  (forall d, e <> LLMParseError d) ->
  loop (remaining settings k) last k = (Raise e, S k).
Proof.
  intros Hk Hb Hne. rewrite remaining_step by exact Hk.
  unfold loop. cbn [attempt_loop]. fold body. rewrite Hb.
  destruct e; try reflexivity. now contradiction (Hne d).
Qed.

Lemma loop_exhausted (k : nat) (last : option exn) (d : parse_detail) :
  S k = budget ->
  parse_fails user_story client k d ->
  loop (remaining settings k) last k = (Raise (LLMParseError d), S k).
Proof.
  intros Hk Hd. rewrite remaining_step by lia.
  unfold loop. cbn [attempt_loop]. fold body.
  rewrite (attempt_body_parse_fails _ k d Hd).
  now rewrite budget_last by exact Hk.
Qed.

Lemma loop_succeeds (k : nat) (last : option exn)
      (r : GenerateResponse QualityReport) :
  k < budget ->
  body (Z.of_nat (1 + k)) (client user_story k) = Ok r ->
  loop (remaining settings k) last k = (Ok r, S k).
Proof.
  intros Hk Hb. rewrite remaining_step by exact Hk.
  unfold loop. cbn [attempt_loop]. fold body. now rewrite Hb.
Qed.

Lemma generate_unfold :
  generate_test_cases QualityReport score_test_cases settings
    user_story client
  = loop (remaining settings 0) None 0.
Proof.
  unfold generate_test_cases, attempt_range, remaining, loop, budget.
  now rewrite Nat.sub_0_r.
Qed.
End GeneratorFacts.

(** C3.  After [k] attempts that ended in a parse error, with attempt
    [k + 1] still within the budget of [MAX_RETRIES + 1] attempts:
    a timeout or a network failure of the collaborator is raised
    unchanged after exactly [k + 1] calls, and so is any other exception
    than a parse error; a parse error at the last allowed attempt is the
    one raised; a successful attempt is returned with its attempt
    number.  The default budget is 2 retries, that is 3 attempts. *)
Theorem generate_retry_policy
        (QualityReport : Type)
        (score_test_cases : list TestCase -> res QualityReport)
        (settings : Settings) (user_story : str) (client : LLMClient)
        (k : nat) :
  k < Z.to_nat (MAX_RETRIES settings + 1) ->
  (forall i, i < k -> exists d, parse_fails user_story client i d) ->
  let generate :=
    generate_test_cases QualityReport score_test_cases settings
      user_story client in
  let this_attempt :=
    attempt_body QualityReport score_test_cases (Z.of_nat (k + 1))
      (client user_story k) in
  (forall e, e = LLMTimeoutError \/ e = LLMNetworkError ->
             client user_story k = Raise e ->
             generate = (Raise e, k + 1))
  /\ (forall e, (forall d, e <> LLMParseError d) ->
                this_attempt = Raise e ->
                generate = (Raise e, k + 1))
  /\ (forall d, parse_fails user_story client k d ->
                k + 1 = Z.to_nat (MAX_RETRIES settings + 1) ->
                generate = (Raise (LLMParseError d), k + 1))
  /\ (forall r, this_attempt = Ok r ->
                generate = (Ok r, k + 1)
                /\ attempts (meta QualityReport r) = Z.of_nat (k + 1))
  /\ Z.to_nat (MAX_RETRIES default_settings + 1) = 3.
Proof.
  intros Hk Hfail generate this_attempt.
  destruct (loop_retries QualityReport score_test_cases settings user_story
              client k Hk Hfail 0 None (Nat.le_0_l k)) as [last E].
  assert (G : generate
              = attempt_loop QualityReport score_test_cases settings
                  user_story client
                  (remaining settings k) last k).
  { unfold generate. now rewrite generate_unfold, E. }
  assert (general : forall e, (forall d, e <> LLMParseError d) ->
                this_attempt = Raise e ->
                generate = (Raise e, k + 1)).
  { intros e Hne Hb. rewrite G, Nat.add_1_r.
    apply loop_stops; [exact Hk | | exact Hne].
    unfold this_attempt in Hb. now rewrite Nat.add_comm in Hb. }
  repeat split.
  - intros e He Hc. apply general.
    + now destruct He as [-> | ->].
    + unfold this_attempt, attempt_body. now rewrite Hc.
  - exact general.
  - intros d Hd Hlast. rewrite G, Nat.add_1_r.
    apply loop_exhausted; [lia | exact Hd].
  - rewrite G, Nat.add_1_r. apply loop_succeeds; [exact Hk|].
    unfold this_attempt in H. now rewrite Nat.add_comm in H.
  - unfold this_attempt, attempt_body in H.
    apply bind_Ok in H as [resp [_ H]].
    apply bind_Ok in H as [[out rep] [_ H]].
    apply bind_Ok in H as [q [_ H]].
    now injection H as <-.
Qed.

(** ** The string scanner reads nothing beyond the closing quote *)

Lemma decode_uXXXX_inv (s : str) (u : N) (r : str) :
  decode_uXXXX s = Some (u, r) ->
  exists a b c d,
    s = a :: b :: c :: d :: r /\
    forall r', decode_uXXXX (a :: b :: c :: d :: r') = Some (u, r').
Proof.
  destruct s as [|a [|b [|c [|d t]]]]; try discriminate.
  unfold decode_uXXXX.
  destruct (hexval a) eqn:Ea, (hexval b) eqn:Eb, (hexval c) eqn:Ec,
    (hexval d) eqn:Ed; try discriminate.
  intros [= <- <-]. exists a, b, c, d. split; [reflexivity|].
  intros r'. now rewrite Ea, Eb, Ec, Ed.
Qed.

Lemma lookahead_inside_cons2 (a b : N) (B : str) :
  startswith UESC [a; b] = false -> lookahead_inside (a :: b :: B).
Proof.
  intros H. split.
  - intros x. cbn [app startswith UESC] in *.
    destruct (N.eqb BACKSLASH a), (N.eqb 117 b); simpl in *; congruence.
  - intros E. cbn [startswith UESC] in *.
    destruct (N.eqb BACKSLASH a), (N.eqb 117 b); simpl in *; congruence.
Qed.

Lemma lookahead_inside_cons1 (a : N) (B : str) :
  N.eqb BACKSLASH a = false -> lookahead_inside (a :: B).
Proof.
  intros H. split.
  - intros x. cbn [app startswith UESC]. now rewrite H.
  - cbn [startswith UESC]. now rewrite H.
Qed.

Lemma lookahead_inside_uesc (a b c d : N) (u : N) (B : str) :
  (forall r', decode_uXXXX (a :: b :: c :: d :: r') = Some (u, r')) ->
  lookahead_inside (BACKSLASH :: 117%N :: a :: b :: c :: d :: B).
Proof.
  intros H. split.
  - intros x. reflexivity.
  - intros _. exists u, B. intros x. cbn [app skipn]. apply H.
Qed.

Lemma scanstring_consumes (f : nat) :
  forall s k r,
    scanstring f s = Ok (k, r) ->
    exists B,
      s = B ++ [QUOTE] ++ r
      /\ lookahead_inside (B ++ [QUOTE])
      /\ forall f' r', length B < f' ->
                       scanstring f' (B ++ [QUOTE] ++ r') = Ok (k, r').
Proof.
  induction f as [|f IH]; intros s k r H; [discriminate|].
  destruct s as [|c t]; [discriminate|].
  cbn [scanstring] in H.
  destruct (N.eqb c QUOTE) eqn:Ec.
  { apply N.eqb_eq in Ec. subst c. injection H as <- <-.
    exists []. split; [reflexivity|]. split.
    - now apply lookahead_inside_cons1.
    - intros [|f'] r' Hf; [simpl in Hf; lia|]. reflexivity. }
  destruct (N.eqb c BACKSLASH) eqn:Eb.
  - apply N.eqb_eq in Eb. subst c.
    destruct t as [|esc t']; [discriminate|].
    destruct (N.eqb esc 117) eqn:Eu.
    + apply N.eqb_eq in Eu. subst esc.
      destruct (decode_uXXXX t') as [[uni t2]|] eqn:Ed; [|discriminate].
      destruct (decode_uXXXX_inv _ _ _ Ed) as [h1 [h2 [h3 [h4 [-> Hd]]]]].
      assert (Single :
        forall content rest,
          scanstring f t2 = Ok (content, rest) ->
          Ok (uni :: content, rest) = Ok (k, r) ->
          (((55296 <=? uni)%N && (uni <=? 56319)%N) && startswith UESC t2 = true ->
           exists uni2 t4, decode_uXXXX (skipn 2 t2) = Some (uni2, t4)
             /\ ((56320 <=? uni2)%N && (uni2 <=? 57343)%N) = false) ->
          exists B,
            BACKSLASH :: 117%N :: h1 :: h2 :: h3 :: h4 :: t2 = B ++ [QUOTE] ++ r
            /\ lookahead_inside (B ++ [QUOTE])
            /\ forall f' r', length B < f' ->
                 scanstring f' (B ++ [QUOTE] ++ r') = Ok (k, r')).
      { intros content rest Hs [= <- <-] Hpair.
        destruct (IH _ _ _ Hs) as [B2 [-> [Hla Hf]]].
        exists (BACKSLASH :: 117%N :: h1 :: h2 :: h3 :: h4 :: B2).
        split; [reflexivity|]. split.
        - now apply lookahead_inside_uesc with (u := uni).
        - intros [|f'] r' Hlen; [simpl in Hlen; lia|].
          cbn [app scanstring].
          change (N.eqb BACKSLASH QUOTE) with false.
          rewrite N.eqb_refl. cbn [N.eqb Pos.eqb].
          rewrite Hd.
          destruct Hla as [Hla1 Hla2].
          change (B2 ++ QUOTE :: r') with (B2 ++ [QUOTE] ++ r').
          rewrite (app_assoc B2 [QUOTE] r').
          rewrite (app_assoc B2 [QUOTE] rest) in Hpair.
          fold UESC. rewrite Hla1. rewrite Hla1 in Hpair.
          rewrite <- (app_assoc B2 [QUOTE] r').
          rewrite Hf by (simpl in Hlen; lia). cbn [bind].
          destruct (((55296 <=? uni)%N && (uni <=? 56319)%N)
                    && startswith UESC (B2 ++ [QUOTE])) eqn:Ep;
            [|reflexivity].
          destruct (Hpair eq_refl) as [uni2 [t4 [Hd2 Hlow]]].
          apply andb_true_iff in Ep as [_ Ep].
          destruct (Hla2 Ep) as [u [B' HB']].
          rewrite (app_assoc B2 [QUOTE] r'), HB'.
          rewrite HB' in Hd2. injection Hd2 as -> _.
          now rewrite Hlow. }
      fold UESC in H.
      destruct (((55296 <=? uni)%N && (uni <=? 56319)%N)
                && startswith UESC t2) eqn:Ep.
      * destruct (decode_uXXXX (skipn 2 t2)) as [[uni2 t4]|] eqn:Ed2;
          [|discriminate].
        destruct (((56320 <=? uni2)%N && (uni2 <=? 57343)%N)) eqn:Elow.
        -- (* a surrogate pair *)
           clear Single.
           apply andb_true_iff in Ep as [Ehigh Ep].
           apply startswith_split in Ep. cbn [length UESC app] in Ep.
           destruct (decode_uXXXX_inv _ _ _ Ed2) as [h5 [h6 [h7 [h8 [E4 Hd2]]]]].
           rewrite E4 in Ep. subst t2.
           destruct (scanstring f t4) as [[content rest]|] eqn:Hs;
             [|discriminate].
           cbn [bind] in H.
           remember (65536 + N.lor (N.shiftl (uni - 55296) 10)
                                   (uni2 - 56320))%N as joined eqn:Ej.
           injection H as <- <-.
           destruct (IH _ _ _ Hs) as [B4 [-> [_ Hf]]].
           exists (BACKSLASH :: 117%N :: h1 :: h2 :: h3 :: h4
                     :: BACKSLASH :: 117%N :: h5 :: h6 :: h7 :: h8 :: B4).
           split; [reflexivity|]. split.
           ++ now apply lookahead_inside_uesc with (u := uni).
           ++ intros [|f'] r' Hlen; [simpl in Hlen; lia|].
              cbn [app scanstring].
              change (N.eqb BACKSLASH QUOTE) with false.
              rewrite N.eqb_refl. cbn [N.eqb Pos.eqb].
              rewrite Hd, Ehigh. cbn [startswith andb skipn].
              rewrite !N.eqb_refl. cbn [andb].
              rewrite Hd2, Elow. rewrite <- Ej.
              change (B4 ++ QUOTE :: r') with (B4 ++ [QUOTE] ++ r').
              now rewrite Hf by (simpl in Hlen; lia).
        -- destruct (scanstring f t2) as [[content rest]|] eqn:Hs;
             [|discriminate].
           cbn [bind] in H.
           apply (Single content rest eq_refl H).
           intros _. exists uni2, t4. split; [reflexivity | exact Elow].
      * destruct (scanstring f t2) as [[content rest]|] eqn:Hs;
          [|discriminate].
        cbn [bind] in H.
        apply (Single content rest eq_refl H).
        intros X. discriminate X.
    + destruct (backslash_escape esc) as [ch|] eqn:Ee; [|discriminate].
      destruct (scanstring f t') as [[content rest]|] eqn:Hs; [|discriminate].
      cbn [bind] in H. injection H as <- <-.
      destruct (IH _ _ _ Hs) as [B1 [-> [_ Hf]]].
      exists (BACKSLASH :: esc :: B1). split; [reflexivity|]. split.
      * apply lookahead_inside_cons2. cbn [startswith UESC].
        rewrite N.eqb_refl, N.eqb_sym, Eu. reflexivity.
      * intros [|f'] r' Hlen; [simpl in Hlen; lia|].
        cbn [app scanstring].
        change (N.eqb BACKSLASH QUOTE) with false.
        rewrite N.eqb_refl, Eu, Ee.
        change (B1 ++ QUOTE :: r') with (B1 ++ [QUOTE] ++ r').
        now rewrite Hf by (simpl in Hlen; lia).
  - destruct (c <? 32)%N eqn:Ectl; [discriminate|].
    destruct (scanstring f t) as [[content rest]|] eqn:Hs; [|discriminate].
    cbn [bind] in H. injection H as <- <-.
    destruct (IH _ _ _ Hs) as [B1 [-> [_ Hf]]].
    exists (c :: B1). split; [reflexivity|]. split.
    + apply lookahead_inside_cons1. now rewrite N.eqb_sym.
    + intros [|f'] r' Hlen; [simpl in Hlen; lia|].
      cbn [app scanstring]. rewrite Ec, Eb, Ectl.
      change (B1 ++ QUOTE :: r') with (B1 ++ [QUOTE] ++ r').
      now rewrite Hf by (simpl in Hlen; lia).
Qed.

(** ** The number pattern reads one character beyond the number at most *)

Lemma head_is_app (p : N -> bool) (a b : str) :
  a <> [] -> head_is p (a ++ b) = head_is p a.
Proof. destruct a; [congruence | reflexivity]. Qed.

Lemma span_digits_inv (s d r : str) :
  span_digits s = (d, r) ->
  s = d ++ r /\ forallb is_digit d = true.
Proof.
  revert d r; induction s as [|c s IH]; intros d r H; simpl in H.
  - injection H as <- <-. now split.
  - destruct (is_digit c) eqn:E.
    + destruct (span_digits s) as [d' r'] eqn:Es. injection H as <- <-.
      destruct (IH _ _ eq_refl) as [-> Hd].
      split; [reflexivity|]. cbn [forallb]. now rewrite E.
    + injection H as <- <-. now split.
Qed.

Lemma span_digits_app (d r : str) :
  forallb is_digit d = true -> head_is is_digit r = false ->
  span_digits (d ++ r) = (d, r).
Proof.
  intros Hd Hr. induction d as [|c d IH]; cbn [forallb app span_digits] in *.
  - destruct r as [|c r]; [reflexivity|].
    cbn [head_is span_digits] in *. now rewrite Hr.
  - apply andb_true_iff in Hd as [Hc Hd]. now rewrite Hc, IH.
Qed.

Lemma match_integer_inv (s i r : str) :
  match_integer s = Some (i, r) ->
  s = i ++ r /\ i <> []
  /\ forall r', head_is is_digit r' = false ->
                match_integer (i ++ r') = Some (i, r').
Proof.
  unfold match_integer.
  assert (Core : forall sign s1,
    match s1 with
    | c :: t =>
        if N.eqb c 48 then Some (sign ++ [c], t)
        else if is_digit c
             then let (d, r) := span_digits t in Some (sign ++ c :: d, r)
             else None
    | [] => None
    end = Some (i, r) ->
    exists j, i = sign ++ j /\ s1 = j ++ r /\ j <> [] /\
      head_is (N.eqb 45) j = false /\
      forall r', head_is is_digit r' = false ->
        match j ++ r' with
        | c :: t =>
            if N.eqb c 48 then Some (sign ++ [c], t)
            else if is_digit c
                 then let (d, r) := span_digits t in Some (sign ++ c :: d, r)
                 else None
        | [] => None
        end = Some (i, r')).
  { intros sign [|c t]; [discriminate|].
    destruct (N.eqb c 48) eqn:E0.
    - intros [= <- <-]. exists [c]. repeat split; try easy.
      + apply N.eqb_eq in E0. now subst c.
      + intros r' _. cbn [app]. now rewrite E0.
    - destruct (is_digit c) eqn:Ed; [|discriminate].
      destruct (span_digits t) as [d r0] eqn:Es. intros [= <- <-].
      apply span_digits_inv in Es as [-> Hd].
      exists (c :: d). repeat split; try easy.
      + cbn [head_is].
        destruct (N.eqb_spec 45 c) as [<-|]; [discriminate Ed | reflexivity].
      + intros r' Hr. cbn [app]. rewrite E0, Ed.
        now rewrite span_digits_app. }
  destruct s as [|c t].
  - intros H. now destruct (Core [] [] H) as [j [_ [Hj [Hne _]]]]; destruct j.
  - destruct (N.eqb c 45) eqn:Em.
    + intros H. destruct (Core [c] t H) as [j [-> [-> [Hne [_ Hj]]]]].
      repeat split; try easy.
      intros r' Hr. cbn [app]. rewrite Em. now apply Hj.
    + intros H. destruct (Core [] (c :: t) H) as [j [-> [Ej [Hne [H45 Hj]]]]].
      cbn [app]. repeat split; try easy.
      intros r' Hr.
      destruct j as [|c' j']; [congruence|].
      cbn [head_is app] in *. rewrite N.eqb_sym, H45.
      now apply (Hj r').
Qed.

Lemma match_frac_inv (s fr r : str) :
  match_frac s = (fr, r) ->
  s = fr ++ r
  /\ (fr = [] \/ head_is (N.eqb 46) fr = true)
  /\ (fr <> [] ->
      forall r', head_is is_digit r' = false ->
                 match_frac (fr ++ r') = (fr, r')).
Proof.
  unfold match_frac. destruct s as [|c t].
  - intros [= <- <-]. split; [reflexivity|]. split; [now left | congruence].
  - destruct (N.eqb c 46) eqn:E.
    + destruct (span_digits t) as [d r0] eqn:Es.
      destruct d as [|d0 d].
      * intros [= <- <-]. split; [reflexivity|]. split; [now left|congruence].
      * intros [= <- <-]. apply span_digits_inv in Es as [-> Hd].
        split; [reflexivity|].
        split; [right; cbn [head_is]; now rewrite N.eqb_sym|].
        intros _ r' Hr. cbn [app]. rewrite E.
        change (d0 :: d ++ r') with ((d0 :: d) ++ r').
        now rewrite span_digits_app.
    + intros [= <- <-]. split; [reflexivity|]. split; [now left | congruence].
Qed.

Lemma match_frac_none (s : str) :
  head_is (N.eqb 46) s = false -> match_frac s = ([], s).
Proof.
  destruct s as [|c t]; [reflexivity|]. cbn [head_is match_frac]. intros H.
  now rewrite N.eqb_sym, H.
Qed.

Lemma match_exp_inv (s ex r : str) :
  match_exp s = (ex, r) ->
  s = ex ++ r
  /\ (ex = [] \/ head_is (fun c => N.eqb c 101 || N.eqb c 69) ex = true)
  /\ (ex <> [] ->
      forall r', head_is is_digit r' = false ->
                 match_exp (ex ++ r') = (ex, r')).
Proof.
  unfold match_exp. destruct s as [|c t].
  - intros [= <- <-]. split; [reflexivity|]. split; [now left | congruence].
  - destruct (N.eqb c 101 || N.eqb c 69) eqn:E.
    + assert (Core : forall sign t1,
        match span_digits t1 with
        | ([], _) => ([], c :: t)
        | (d, r) => (c :: sign ++ d, r)
        end = (ex, r) ->
        (ex = [] /\ r = c :: t) \/
        exists d, d <> [] /\ forallb is_digit d = true
                  /\ ex = c :: sign ++ d /\ t1 = d ++ r).
      { intros sign t1. destruct (span_digits t1) as [d r0] eqn:Es.
        apply span_digits_inv in Es as [-> Hd].
        destruct d as [|d0 d].
        - intros [= <- <-]. now left.
        - intros [= <- <-]. right. now exists (d0 :: d). }
      intros H.
      destruct t as [|c' t'].
      * destruct (Core [] [] H) as [[-> ->]|[d [Hne [_ [_ Hd]]]]].
        -- split; [reflexivity|]. split; [now left | congruence].
        -- destruct d; [congruence | discriminate].
      * destruct (N.eqb c' 45 || N.eqb c' 43) eqn:Es.
        -- destruct (Core [c'] t' H) as [[-> ->]|[d [Hne [Hd [-> ->]]]]].
           ++ split; [reflexivity|]. split; [now left | congruence].
           ++ split; [reflexivity|].
              split; [right; exact E|].
              intros _ r' Hr. cbn [app]. rewrite E, Es.
              rewrite span_digits_app by assumption.
              destruct d; [congruence | reflexivity].
        -- destruct (Core [] (c' :: t') H) as [[-> ->]|[d [Hne [Hd [-> Et]]]]].
           ++ split; [reflexivity|]. split; [now left | congruence].
           ++ split; [cbn [app]; now rewrite Et|].
              split; [right; exact E|].
              intros _ r' Hr. cbn [app]. rewrite E.
              destruct d as [|d0 d]; [congruence|].
              injection Et as <- _. cbn [app]. rewrite Es.
              change (c' :: d ++ r') with ((c' :: d) ++ r').
              now rewrite span_digits_app.
    + intros [= <- <-]. split; [reflexivity|]. split; [now left | congruence].
Qed.

Lemma match_exp_none (s : str) :
  head_is (fun c => N.eqb c 101 || N.eqb c 69) s = false ->
  match_exp s = ([], s).
Proof.
  destruct s as [|c t]; [reflexivity|]. cbn [head_is match_exp].
  now intros ->.
Qed.

Lemma ends_number_heads (r : str) :
  ends_number r = true ->
  head_is is_digit r = false /\ head_is (N.eqb 46) r = false
  /\ head_is (fun c => N.eqb c 101 || N.eqb c 69) r = false.
Proof.
  unfold ends_number. destruct r as [|c r]; [easy|]. cbn [head_is].
  rewrite (N.eqb_sym 46 c).
  destruct (is_digit c), (N.eqb c 46), (N.eqb c 101), (N.eqb c 69);
    simpl; intros; try discriminate; easy.
Qed.

Lemma dot_not_digit (s : str) :
  head_is (N.eqb 46) s = true -> head_is is_digit s = false.
Proof.
  destruct s as [|c s]; [easy|]. cbn [head_is]. intros H.
  apply N.eqb_eq in H. now subst c.
Qed.

Lemma exp_not_digit_dot (s : str) :
  head_is (fun c => N.eqb c 101 || N.eqb c 69) s = true ->
  head_is is_digit s = false /\ head_is (N.eqb 46) s = false.
Proof.
  destruct s as [|c s]; [easy|]. cbn [head_is]. intros H.
  apply orb_true_iff in H as [H|H]; apply N.eqb_eq in H; now subst c.
Qed.

Lemma ends_digit_app (a b : str) : ends_digit b -> ends_digit (a ++ b).
Proof.
  intros [l0 [c [-> H]]]. exists (a ++ l0), c. now rewrite app_assoc.
Qed.

Lemma digits_end_digit (d : str) :
  d <> [] -> forallb is_digit d = true -> ends_digit d.
Proof.
  intros Hne Hd. destruct (exists_last Hne) as [l0 [c ->]].
  exists l0, c. split; [reflexivity|].
  rewrite forallb_app in Hd. apply andb_true_iff in Hd as [_ Hd].
  cbn [forallb] in Hd. now rewrite andb_true_r in Hd.
Qed.

Lemma span_digits_end (c : N) (t d r : str) :
  is_digit c = true -> span_digits t = (d, r) -> ends_digit (c :: d).
Proof.
  intros Hc Hs. apply span_digits_inv in Hs as [_ Hd].
  apply digits_end_digit; [congruence|]. cbn [forallb]. now rewrite Hc.
Qed.

Lemma match_integer_end (s i r : str) :
  match_integer s = Some (i, r) -> ends_digit i.
Proof.
  unfold match_integer.
  destruct (match s with
            | [] => ([], s)
            | c :: t => if N.eqb c 45 then ([c], t) else ([], s)
            end) as [sign s1].
  destruct s1 as [|c t]; [discriminate|].
  destruct (N.eqb c 48) eqn:E0.
  - intros [= <- <-]. apply ends_digit_app. exists [], c.
    apply N.eqb_eq in E0. now subst c.
  - destruct (is_digit c) eqn:Ed; [|discriminate].
    destruct (span_digits t) as [d r0] eqn:Es. intros [= <- <-].
    apply ends_digit_app. now apply (span_digits_end c t d r0).
Qed.

Lemma match_frac_end (s fr r : str) :
  match_frac s = (fr, r) -> fr <> [] -> ends_digit fr.
Proof.
  unfold match_frac. destruct s as [|c t]; [intros [= <- <-]; congruence|].
  destruct (N.eqb c 46); [|intros [= <- <-]; congruence].
  destruct (span_digits t) as [d r0] eqn:Es.
  destruct d as [|d0 d]; [intros [= <- <-]; congruence|].
  intros [= <- <-] _. apply span_digits_inv in Es as [_ Hd].
  apply (ends_digit_app [c]). now apply digits_end_digit.
Qed.

Lemma match_exp_end (s ex r : str) :
  match_exp s = (ex, r) -> ex <> [] -> ends_digit ex.
Proof.
  unfold match_exp. destruct s as [|c t]; [intros [= <- <-]; congruence|].
  destruct (N.eqb c 101 || N.eqb c 69); [|intros [= <- <-]; congruence].
  destruct (match t with
            | [] => ([], t)
            | c' :: t' =>
                if N.eqb c' 45 || N.eqb c' 43 then ([c'], t') else ([], t)
            end) as [sign t1].
  destruct (span_digits t1) as [d r0] eqn:Es.
  destruct d as [|d0 d]; [intros [= <- <-]; congruence|].
  intros [= <- <-] _. apply span_digits_inv in Es as [_ Hd].
  apply (ends_digit_app (c :: sign)). now apply digits_end_digit.
Qed.

Lemma match_number_end (s i fr ex r : str) :
  match_number s = Some (i, fr, ex, r) -> ends_digit (i ++ fr ++ ex).
Proof.
  unfold match_number.
  destruct (match_integer s) as [[i0 s1]|] eqn:Ei; [|discriminate].
  destruct (match_frac s1) as [fr0 s2] eqn:Ef.
  destruct (match_exp s2) as [ex0 s3] eqn:Ee.
  intros [= <- <- <- <-].
  destruct ex0 as [|e0 ex0].
  - rewrite app_nil_r. destruct fr0 as [|f0 fr0].
    + rewrite app_nil_r. now apply match_integer_end in Ei.
    + apply ends_digit_app. apply (match_frac_end _ _ _ Ef). congruence.
  - rewrite app_assoc. apply ends_digit_app.
    apply (match_exp_end _ _ _ Ee). congruence.
Qed.

(** A number starts with a digit or a minus sign. *)
Lemma match_number_head (c : N) (t : str) (x : str * str * str * str) :
  match_number (c :: t) = Some x -> is_digit c = true \/ c = 45%N.
Proof.
  unfold match_number, match_integer.
  destruct (N.eqb c 45) eqn:E45; [apply N.eqb_eq in E45; now right|].
  destruct (N.eqb c 48) eqn:E48.
  - apply N.eqb_eq in E48. subst c. now left.
  - destruct (is_digit c); [now left | discriminate].
Qed.

Lemma match_number_inv (s i fr ex r : str) :
  match_number s = Some (i, fr, ex, r) ->
  s = (i ++ fr ++ ex) ++ r /\ i <> []
  /\ forall r', ends_number r' = true ->
       match_number ((i ++ fr ++ ex) ++ r') = Some (i, fr, ex, r').
Proof.
  unfold match_number.
  destruct (match_integer s) as [[i0 s1]|] eqn:Ei; [|discriminate].
  destruct (match_frac s1) as [fr0 s2] eqn:Ef.
  destruct (match_exp s2) as [ex0 s3] eqn:Ee.
  intros [= <- <- <- <-].
  apply match_integer_inv in Ei as [-> [Hi Ki]].
  apply match_frac_inv in Ef as [-> [Hf Kf]].
  apply match_exp_inv in Ee as [-> [He Ke]].
  split; [now rewrite <- !app_assoc|]. split; [exact Hi|].
  intros r' Hr. apply ends_number_heads in Hr as [R1 [R2 R3]].
  assert (Eh : head_is is_digit (ex0 ++ r') = false
               /\ head_is (N.eqb 46) (ex0 ++ r') = false).
  { destruct He as [->|He]; [now split|].
    destruct ex0 as [|e0 ex0]; [discriminate|].
    rewrite !head_is_app by congruence. now apply exp_not_digit_dot. }
  destruct Eh as [Eh1 Eh2].
  assert (Fh : head_is is_digit (fr0 ++ ex0 ++ r') = false).
  { destruct Hf as [->|Hf]; [exact Eh1|].
    destruct fr0 as [|f0 fr0]; [discriminate|].
    rewrite head_is_app by congruence. now apply dot_not_digit. }
  rewrite <- !app_assoc. rewrite (Ki _ Fh).
  assert (Ef' : match_frac (fr0 ++ ex0 ++ r') = (fr0, ex0 ++ r')).
  { destruct fr0 as [|f0 fr0].
    - now apply match_frac_none.
    - apply Kf; [congruence | exact Eh1]. }
  rewrite Ef'.
  assert (Ee' : match_exp (ex0 ++ r') = (ex0, r')).
  { destruct ex0 as [|e0 ex0].
    - now apply match_exp_none.
    - apply Ke; [congruence | exact R1]. }
  now rewrite Ee'.
Qed.

(** ** White space between tokens *)

Lemma skip_ws_split (s : str) :
  exists w, s = w ++ skip_ws s /\ forallb is_json_ws w = true.
Proof.
  induction s as [|c s [w [IH Hw]]]; [now exists []|].
  cbn [skip_ws]. destruct (is_json_ws c) eqn:E.
  - exists (c :: w). cbn [app forallb]. rewrite E, Hw. split; [|reflexivity].
    now f_equal.
  - now exists [].
Qed.

Lemma skip_ws_head (s : str) : head_is is_json_ws (skip_ws s) = false.
Proof.
  induction s as [|c s IH]; [reflexivity|].
  cbn [skip_ws]. destruct (is_json_ws c) eqn:E; [exact IH | exact E].
Qed.

Lemma skip_ws_app (w x : str) :
  forallb is_json_ws w = true -> head_is is_json_ws x = false ->
  skip_ws (w ++ x) = x.
Proof.
  intros Hw Hx. induction w as [|c w IH]; cbn [app forallb] in *.
  - destruct x as [|c x]; [reflexivity|].
    cbn [head_is skip_ws] in *. now rewrite Hx.
  - apply andb_true_iff in Hw as [Hc Hw]. cbn [skip_ws].
    rewrite Hc. now apply IH.
Qed.

(** The text [w ++ c :: t], which [skip_ws] turns into [c :: t]. *)
Lemma skip_ws_inv (s : str) (c : N) (t : str) :
  skip_ws s = c :: t ->
  exists w, s = w ++ c :: t /\ forallb is_json_ws w = true
            /\ is_json_ws c = false.
Proof.
  intros H. destruct (skip_ws_split s) as [w [E Hw]].
  exists w. rewrite H in E. split; [exact E|]. split; [exact Hw|].
  pose proof (skip_ws_head s) as Hh. now rewrite H in Hh.
Qed.

Lemma json_ws_ends_number (a : N) (t : str) :
  is_json_ws a = true -> ends_number (a :: t) = true.
Proof.
  unfold is_json_ws, ends_number. cbn [head_is]. intros H.
  repeat (apply orb_true_iff in H as [H|H]);
    apply N.eqb_eq in H; subst a; reflexivity.
Qed.

(** White space followed by a structural character ends a number. *)
Lemma ws_then_ends_number (w : str) (c : N) (t : str) :
  forallb is_json_ws w = true -> ends_number (c :: t) = true ->
  ends_number (w ++ c :: t) = true.
Proof.
  destruct w as [|a w]; [easy|]. cbn [forallb app]. intros H _.
  apply andb_true_iff in H as [H _]. now apply json_ws_ends_number.
Qed.

(** ** Each parser reads nothing beyond the value it returns *)

Lemma expecting_value_Ok {A} (m : res A) (a : A) :
  expecting_value m = Ok a -> m = Ok a.
Proof. destruct m as [x|[]]; simpl; congruence. Qed.

Lemma isspace_digit (c : N) : is_digit c = true -> isspace c = false.
Proof.
  unfold is_digit, isspace. intros H.
  apply andb_true_iff in H as [H1 H2].
  apply N.leb_le in H1, H2.
  assert (L : forall k, (k < 48)%N -> (c <=? k)%N = false)
    by (intros k Hk; apply N.leb_gt; lia).
  assert (E : forall k, (57 < k)%N -> (c =? k)%N = false)
    by (intros k Hk; apply N.eqb_neq; lia).
  assert (G : forall k, (57 < k)%N -> (k <=? c)%N = false)
    by (intros k Hk; apply N.leb_gt; lia).
  rewrite (L 13%N), (L 32%N), (G 8192%N) by lia.
  rewrite !E by lia. now rewrite !andb_false_r.
Qed.

Lemma array_values_nil (f : nat) (values : list json) (x : json * str) :
  array_values f [] values <> Ok x.
Proof.
  destruct f as [|[|f]]; cbn [array_values scan_once expecting_value bind];
    discriminate.
Qed.

Lemma scanstring_local (f : nat) (s k r : str) :
  scanstring f s = Ok (k, r) ->
  exists B, s = B ++ QUOTE :: r
            /\ forall f' r', length B < f' ->
                             scanstring f' (B ++ QUOTE :: r') = Ok (k, r').
Proof.
  intros H. destruct (scanstring_consumes _ _ _ _ H) as [B [E [_ K]]].
  exists B. split; [exact E | exact K].
Qed.

Lemma length_app_cons_lt (B : str) (c : N) (t : str) :
  length B < length (B ++ c :: t).
Proof. rewrite length_app. cbn [length]. lia. Qed.

(** Both sides as right-nested concatenations. *)
Ltac list_norm :=
  repeat (progress (try rewrite <- !app_assoc; cbn [app])).

Section Step.
Variable f : nat.
Hypothesis IHscan : local_scan f.
Hypothesis IHobj : local_upto 125 (JSONObject f).
Hypothesis IHpairs : forall pairs,
    local_upto 125 (fun s => object_pairs f s pairs).
Hypothesis IHarr : local_upto 93 (JSONArray f).
Hypothesis IHvals : forall values,
    local_upto 93 (fun s => array_values f s values).

Lemma local_array_values (values : list json) :
  local_upto 93 (fun s => array_values (S f) s values).
Proof.
  intros s v r H. cbn [array_values] in H.
  destruct (expecting_value (scan_once f s)) as [[value s1]|] eqn:Ev;
    [|discriminate].
  apply expecting_value_Ok in Ev. cbn [bind] in H.
  destruct (IHscan _ _ _ Ev) as [Vv [cv [-> [_ Kv]]]].
  destruct (skip_ws s1) as [|nextchar s2] eqn:Ew; [discriminate|].
  apply skip_ws_inv in Ew as [w [-> [Hw Hn]]].
  destruct (N.eqb nextchar 93) eqn:E93.
  - apply N.eqb_eq in E93. subst nextchar. injection H as <- <-.
    exists (Vv ++ cv :: w). split; [now rewrite <- app_assoc|].
    intros r'. cbn [array_values]. rewrite <- app_assoc. cbn [app].
    rewrite (Kv (w ++ 93%N :: r')) by now apply ws_then_ends_number.
    cbn [expecting_value bind].
    rewrite skip_ws_app by easy. reflexivity.
  - destruct (N.eqb nextchar 44) eqn:E44; [|discriminate].
    apply N.eqb_eq in E44. subst nextchar.
    destruct (IHvals _ _ _ _ H) as [V2 [E2 K2]].
    destruct (skip_ws_split s2) as [w2 [Es2 Hw2]].
    exists (Vv ++ cv :: w ++ 44%N :: w2 ++ V2). split.
    + rewrite <- app_assoc. cbn [app]. do 2 f_equal.
      rewrite <- app_assoc. cbn [app]. do 2 f_equal.
      rewrite <- app_assoc. rewrite Es2 at 1. now rewrite E2.
    + intros r'. cbn [array_values].
      replace ((Vv ++ cv :: w ++ 44%N :: w2 ++ V2) ++ 93%N :: r')
        with (Vv ++ cv :: w ++ 44%N :: w2 ++ V2 ++ 93%N :: r')
        by (list_norm; reflexivity).
      rewrite (Kv (w ++ 44%N :: w2 ++ V2 ++ 93%N :: r'))
        by now apply ws_then_ends_number.
      cbn [expecting_value bind].
      rewrite skip_ws_app by easy. cbn [N.eqb Pos.eqb].
      assert (Hh : head_is is_json_ws (V2 ++ 93%N :: r') = false).
      { pose proof (skip_ws_head s2) as Hh. rewrite E2 in Hh.
        destruct V2; [reflexivity | exact Hh]. }
      rewrite (skip_ws_app w2 _ Hw2 Hh). apply K2.
Qed.

Lemma local_JSONArray : local_upto 93 (JSONArray (S f)).
Proof.
  intros s v r H. cbn [JSONArray] in H.
  destruct (skip_ws s) as [|nextchar t] eqn:Ew.
  { now apply array_values_nil in H. }
  destruct (skip_ws_inv _ _ _ Ew) as [w [-> [Hw Hn]]].
  destruct (N.eqb nextchar 93) eqn:E93.
  - apply N.eqb_eq in E93. subst nextchar. injection H as <- <-.
    exists w. split; [reflexivity|].
    intros r'. cbn [JSONArray]. rewrite skip_ws_app by easy. reflexivity.
  - destruct (IHvals _ _ _ _ H) as [V1 [E1 K1]].
    destruct V1 as [|c1 V1].
    { injection E1 as -> _. discriminate. }
    injection E1 as -> ->.
    exists (w ++ c1 :: V1). split; [now rewrite <- app_assoc|].
    intros r'. cbn [JSONArray]. rewrite <- app_assoc.
    rewrite skip_ws_app by easy. cbn [app]. rewrite E93.
    apply (K1 r').
Qed.

Lemma local_object_pairs (pairs : list (str * json)) :
  local_upto 125 (fun s => object_pairs (S f) s pairs).
Proof.
  intros s v r H. cbn [object_pairs] in H.
  destruct (scanstring (length s) s) as [[key s1]|] eqn:Ek; [|discriminate].
  cbn [bind] in H.
  destruct (scanstring_local _ _ _ _ Ek) as [B [-> Kk]].
  destruct (skip_ws s1) as [|colon s2] eqn:Ew1; [discriminate|].
  apply skip_ws_inv in Ew1 as [w1 [-> [Hw1 Hc]]].
  destruct (N.eqb colon 58) eqn:E58; [|discriminate].
  apply N.eqb_eq in E58. subst colon.
  destruct (expecting_value (scan_once f (skip_ws s2))) as [[value s3]|]
    eqn:Ev; [|discriminate].
  apply expecting_value_Ok in Ev. cbn [bind] in H.
  destruct (IHscan _ _ _ Ev) as [Vv [cv [E2 [_ Kv]]]].
  destruct (skip_ws_split s2) as [w2 [Es2 Hw2]].
  assert (Hh2 : forall x, head_is is_json_ws (Vv ++ cv :: x) = false).
  { intros x. pose proof (skip_ws_head s2) as Hh. rewrite E2 in Hh.
    destruct Vv; exact Hh. }
  destruct (skip_ws s3) as [|nextchar s4] eqn:Ew3; [discriminate|].
  apply skip_ws_inv in Ew3 as [w3 [-> [Hw3 Hn]]].
  (* the same steps on a text with another tail *)
  assert (Prefix : forall c tail,
    is_json_ws c = false -> ends_number (c :: tail) = true ->
    object_pairs (S f)
      (B ++ QUOTE :: w1 ++ 58%N :: w2 ++ Vv ++ cv :: w3 ++ c :: tail) pairs
    = if N.eqb c 125
      then Ok (JObj (dict_of_pairs (pairs ++ [(key, value)])), tail)
      else if N.eqb c 44 then
        match skip_ws tail with
        | q :: s5 =>
            if N.eqb q QUOTE
            then object_pairs f s5 (pairs ++ [(key, value)])
            else Raise (JSONDecodeError
              "Expecting property name enclosed in double quotes")
        | [] => Raise (JSONDecodeError
              "Expecting property name enclosed in double quotes")
        end
      else Raise (JSONDecodeError "Expecting ',' delimiter")).
  { intros c tail Hcw Hce. cbn [object_pairs].
    rewrite Kk by apply length_app_cons_lt.
    cbn [bind]. rewrite skip_ws_app by easy. cbn [N.eqb Pos.eqb].
    rewrite (skip_ws_app w2 _ Hw2 (Hh2 _)).
    rewrite (Kv (w3 ++ c :: tail)) by now apply ws_then_ends_number.
    cbn [expecting_value bind].
    rewrite skip_ws_app by easy. reflexivity. }
  assert (Shape : B ++ QUOTE :: w1 ++ 58%N :: s2
                  = B ++ QUOTE :: w1 ++ 58%N :: w2 ++ Vv ++ cv :: w3
                      ++ nextchar :: s4).
  { do 4 f_equal. rewrite Es2 at 1. now rewrite E2. }
  rewrite Shape. clear Shape.
  destruct (N.eqb nextchar 125) eqn:E125.
  - apply N.eqb_eq in E125. subst nextchar. injection H as <- <-.
    exists (B ++ QUOTE :: w1 ++ 58%N :: w2 ++ Vv ++ cv :: w3). split.
    + list_norm. reflexivity.
    + intros r'.
      replace ((B ++ QUOTE :: w1 ++ 58%N :: w2 ++ Vv ++ cv :: w3)
                 ++ 125%N :: r')
        with (B ++ QUOTE :: w1 ++ 58%N :: w2 ++ Vv ++ cv :: w3
                ++ 125%N :: r')
        by (list_norm; reflexivity).
      now rewrite Prefix.
  - destruct (N.eqb nextchar 44) eqn:E44; [|discriminate].
    apply N.eqb_eq in E44. subst nextchar.
    destruct (skip_ws s4) as [|q s5] eqn:Ew4; [discriminate|].
    apply skip_ws_inv in Ew4 as [w4 [-> [Hw4 Hq]]].
    destruct (N.eqb q QUOTE) eqn:Eq; [|discriminate].
    apply N.eqb_eq in Eq. subst q.
    destruct (IHpairs _ _ _ _ H) as [V5 [-> K5]].
    exists (B ++ QUOTE :: w1 ++ 58%N :: w2 ++ Vv ++ cv :: w3
              ++ 44%N :: w4 ++ QUOTE :: V5). split.
    + list_norm. reflexivity.
    + intros r'.
      replace ((B ++ QUOTE :: w1 ++ 58%N :: w2 ++ Vv ++ cv :: w3
                  ++ 44%N :: w4 ++ QUOTE :: V5) ++ 125%N :: r')
        with (B ++ QUOTE :: w1 ++ 58%N :: w2 ++ Vv ++ cv :: w3
                ++ 44%N :: (w4 ++ QUOTE :: V5 ++ 125%N :: r'))
        by (list_norm; reflexivity).
      rewrite Prefix by easy. cbn [N.eqb Pos.eqb].
      rewrite skip_ws_app by easy. rewrite N.eqb_refl. apply K5.
Qed.

Lemma local_JSONObject : local_upto 125 (JSONObject (S f)).
Proof.
  intros s v r H. cbn [JSONObject] in H.
  destruct (skip_ws s) as [|nextchar t] eqn:Ew; [discriminate|].
  destruct (skip_ws_inv _ _ _ Ew) as [w [-> [Hw Hn]]].
  destruct (N.eqb nextchar 125) eqn:E125.
  - apply N.eqb_eq in E125. subst nextchar. injection H as <- <-.
    exists w. split; [reflexivity|].
    intros r'. cbn [JSONObject]. rewrite skip_ws_app by easy. reflexivity.
  - destruct (N.eqb nextchar QUOTE) eqn:Eq; [|discriminate].
    apply N.eqb_eq in Eq. subst nextchar.
    destruct (IHpairs _ _ _ _ H) as [V1 [-> K1]].
    exists (w ++ QUOTE :: V1). split; [now rewrite <- app_assoc|].
    intros r'. cbn [JSONObject]. rewrite <- app_assoc. cbn [app].
    rewrite skip_ws_app by easy. cbn [N.eqb Pos.eqb].
    rewrite N.eqb_refl. apply K1.
Qed.

Lemma number_head_not_literal (c : N) (t : str) :
  is_digit c = true \/ c = 45%N ->
  N.eqb c QUOTE = false /\ N.eqb c 123 = false /\ N.eqb c 91 = false
  /\ startswith (lit "null") (c :: t) = false
  /\ startswith (lit "true") (c :: t) = false
  /\ startswith (lit "false") (c :: t) = false.
Proof.
  intros [H| ->]; [|repeat split; reflexivity].
  unfold is_digit in H. apply andb_true_iff in H as [H1 H2].
  apply N.leb_le in H1, H2.
  assert (X : forall k : N, (k < 48 \/ 57 < k)%N -> N.eqb c k = false)
    by (intros k Hk; apply N.eqb_neq; lia).
  assert (Y : forall k : N, (k < 48 \/ 57 < k)%N -> N.eqb k c = false)
    by (intros k Hk; apply N.eqb_neq; lia).
  repeat split; try (apply X; unfold QUOTE; lia);
    cbn [lit list_ascii_of_string List.map startswith];
    match goal with
    | |- N.eqb ?k c && _ = false =>
        replace (N.eqb k c) with false
          by (symmetry; apply Y; vm_compute; right; reflexivity)
    end; reflexivity.
Qed.

Lemma local_scan_once : local_scan (S f).
Proof.
  intros s v r H. destruct s as [|c t]; [discriminate|].
  cbn [scan_once] in H.
  destruct (N.eqb c QUOTE) eqn:Eq.
  { apply N.eqb_eq in Eq. subst c.
    destruct (scanstring (length t) t) as [[k r0]|] eqn:Ek; [|discriminate].
    cbn [bind] in H. injection H as <- <-.
    destruct (scanstring_local _ _ _ _ Ek) as [B [-> Kk]].
    exists (QUOTE :: B), QUOTE. split; [reflexivity|]. split; [reflexivity|].
    intros r' _. cbn [app scan_once]. rewrite N.eqb_refl.
    now rewrite Kk by apply length_app_cons_lt. }
  destruct (N.eqb c 123) eqn:Eb.
  { apply N.eqb_eq in Eb. subst c.
    destruct (IHobj _ _ _ H) as [V1 [-> K1]].
    exists (123%N :: V1), 125%N. split; [reflexivity|]. split; [reflexivity|].
    intros r' _. cbn [app scan_once]. cbn [N.eqb Pos.eqb QUOTE]. apply K1. }
  destruct (N.eqb c 91) eqn:Ea.
  { apply N.eqb_eq in Ea. subst c.
    destruct (IHarr _ _ _ H) as [V1 [-> K1]].
    exists (91%N :: V1), 93%N. split; [reflexivity|]. split; [reflexivity|].
    intros r' _. cbn [app scan_once]. cbn [N.eqb Pos.eqb QUOTE]. apply K1. }
  destruct (startswith (lit "null") (c :: t)) eqn:Enull.
  { injection H as <- <-. apply startswith_split in Enull.
    change (length (lit "null")) with 4 in Enull.
    exists (lit "nul"), 108%N. split; [exact Enull|]. split; reflexivity. }
  destruct (startswith (lit "true") (c :: t)) eqn:Etrue.
  { injection H as <- <-. apply startswith_split in Etrue.
    change (length (lit "true")) with 4 in Etrue.
    exists (lit "tru"), 101%N. split; [exact Etrue|]. split; reflexivity. }
  destruct (startswith (lit "false") (c :: t)) eqn:Efalse.
  { injection H as <- <-. apply startswith_split in Efalse.
    change (length (lit "false")) with 5 in Efalse.
    exists (lit "fals"), 101%N. split; [exact Efalse|]. split; reflexivity. }
  destruct (match_number (c :: t)) as [[[[i fr] ex] r0]|] eqn:En.
  { pose proof (match_number_head _ _ _ En) as Hhead.
    pose proof (match_number_end _ _ _ _ _ En) as [l0 [d [El Hd]]].
    destruct (match_number_inv _ _ _ _ _ En) as [Es [Hi Kn]].
    assert (Hr : r = r0 /\
                 v = if is_nil fr && is_nil ex
                     then JInt (int_of_lexeme i)
                     else JFloat (i ++ fr ++ ex)).
    { destruct (is_nil fr && is_nil ex); injection H as <- <-; now split. }
    destruct Hr as [<- Hv]. clear H.
    exists l0, d. split.
    { rewrite Es, El. now rewrite <- app_assoc. }
    split; [now apply isspace_digit|].
    intros r' Hr'.
    replace (l0 ++ d :: r') with ((i ++ fr ++ ex) ++ r')
      by (rewrite El; now rewrite <- app_assoc).
    specialize (Kn r' Hr').
    destruct ((i ++ fr ++ ex) ++ r') as [|c' t'] eqn:E'.
    { destruct i; [congruence | discriminate]. }
    assert (c' = c).
    { rewrite Es in *. destruct i as [|c0 i]; [congruence|].
      cbn [app] in E', Es. congruence. }
    subst c'.
    destruct (number_head_not_literal c t' Hhead)
      as [N1 [N2 [N3 [N4 [N5 N6]]]]].
    cbn [scan_once]. rewrite N1, N2, N3, N4, N5, N6, Kn, Hv.
    now destruct (is_nil fr && is_nil ex). }
  destruct (startswith (lit "NaN") (c :: t)) eqn:Enan.
  { injection H as <- <-. apply startswith_split in Enan.
    change (length (lit "NaN")) with 3 in Enan.
    exists (lit "Na"), 78%N. split; [exact Enan|]. split; reflexivity. }
  destruct (startswith (lit "Infinity") (c :: t)) eqn:Einf.
  { injection H as <- <-. apply startswith_split in Einf.
    change (length (lit "Infinity")) with 8 in Einf.
    exists (lit "Infinit"), 121%N. split; [exact Einf|]. split; reflexivity. }
  destruct (startswith (lit "-Infinity") (c :: t)) eqn:Eninf; [|discriminate].
  injection H as <- <-. apply startswith_split in Eninf.
  change (length (lit "-Infinity")) with 9 in Eninf.
  exists (lit "-Infinit"), 121%N. split; [exact Eninf|]. split; reflexivity.
Qed.
End Step.

(** Every parser of the scanner is local, whatever the fuel. *)
Lemma scanner_local (f : nat) :
  local_scan f
  /\ local_upto 125 (JSONObject f)
  /\ (forall pairs, local_upto 125 (fun s => object_pairs f s pairs))
  /\ local_upto 93 (JSONArray f)
  /\ (forall values, local_upto 93 (fun s => array_values f s values)).
Proof.
  induction f as [|f [IH1 [IH2 [IH3 [IH4 IH5]]]]].
  - repeat split; try intros ? ? ? ? H; try intros ? ? ? H; discriminate.
  - split; [now apply local_scan_once|].
    split; [now apply local_JSONObject|].
    split; [intros pairs; now apply local_object_pairs|].
    split; [now apply local_JSONArray|].
    intros values; now apply local_array_values.
Qed.

(** ** Fuel: three units for each character are never used up *)

Lemma skip_ws_length (s : str) : length (skip_ws s) <= length s.
Proof.
  destruct (skip_ws_split s) as [w [E _]].
  apply (f_equal (@length N)) in E. rewrite length_app in E. lia.
Qed.

Lemma skip_ws_cons_length (s : str) (c : N) (t : str) :
  skip_ws s = c :: t -> length t < length s.
Proof.
  intros H. pose proof (skip_ws_length s) as L. rewrite H in L.
  cbn [length] in L. lia.
Qed.

Lemma scanstring_length (f : nat) (s k r : str) :
  scanstring f s = Ok (k, r) -> length r < length s.
Proof.
  intros H. destruct (scanstring_local _ _ _ _ H) as [B [-> _]].
  rewrite length_app. cbn [length]. lia.
Qed.

Lemma scan_once_length (f : nat) (s : str) (v : json) (r : str) :
  scan_once f s = Ok (v, r) -> length r < length s.
Proof.
  intros H. destruct (proj1 (scanner_local f) _ _ _ H) as [V [c [-> _]]].
  rewrite length_app. cbn [length]. lia.
Qed.

Lemma fuel_irrelevant (f : nat) :
  fuel_enough 1 scan_once f
  /\ fuel_enough 3 JSONObject f
  /\ (forall pairs, fuel_enough 2 (fun f s => object_pairs f s pairs) f)
  /\ fuel_enough 3 JSONArray f
  /\ (forall values, fuel_enough 2 (fun f s => array_values f s values) f).
Proof.
  induction f as [|g [IHscan [IHobj [IHpairs [IHarr IHvals]]]]].
  { repeat split; intros; intros f' s H; lia. }
  split; [|split; [|split; [|split]]].
  - (* scan_once *)
    intros [|g'] s H H'; [lia|].
    destruct s as [|c t]; [reflexivity|].
    cbn [length] in H, H'. cbn [scan_once].
    rewrite (IHobj g' t) by lia. rewrite (IHarr g' t) by lia.
    reflexivity.
  - (* JSONObject *)
    intros [|g'] s H H'; [lia|]. cbn [JSONObject].
    destruct (skip_ws s) as [|c t] eqn:Ew; [reflexivity|].
    apply skip_ws_cons_length in Ew.
    rewrite (IHpairs [] g' t) by lia. reflexivity.
  - (* object_pairs *)
    intros pairs [|g'] s H H'; [lia|]. cbn [object_pairs].
    destruct (scanstring (length s) s) as [[key s1]|] eqn:Ek; [|reflexivity].
    apply scanstring_length in Ek. cbn [bind].
    destruct (skip_ws s1) as [|colon s2] eqn:Ew1; [reflexivity|].
    apply skip_ws_cons_length in Ew1.
    pose proof (skip_ws_length s2) as L2.
    rewrite (IHscan g' (skip_ws s2)) by lia.
    destruct (scan_once g' (skip_ws s2)) as [[value s3]|e] eqn:Ev;
      [|destruct e; reflexivity].
    apply scan_once_length in Ev. cbn [expecting_value bind].
    destruct (skip_ws s3) as [|nextchar s4] eqn:Ew3; [reflexivity|].
    apply skip_ws_cons_length in Ew3.
    destruct (skip_ws s4) as [|q s5] eqn:Ew4; [reflexivity|].
    apply skip_ws_cons_length in Ew4.
    rewrite (IHpairs (pairs ++ [(key, value)]) g' s5) by lia.
    reflexivity.
  - (* JSONArray *)
    intros [|g'] s H H'; [lia|]. cbn [JSONArray].
    pose proof (skip_ws_length s) as L.
    rewrite (IHvals [] g' (skip_ws s)) by lia.
    rewrite (IHvals [] g' []) by (cbn [length]; lia).
    reflexivity.
  - (* array_values *)
    intros values [|g'] s H H'; [lia|]. cbn [array_values].
    rewrite (IHscan g' s) by lia.
    destruct (scan_once g' s) as [[value s1]|e] eqn:Ev;
      [|destruct e; reflexivity].
    apply scan_once_length in Ev. cbn [expecting_value bind].
    destruct (skip_ws s1) as [|nextchar s2] eqn:Ew; [reflexivity|].
    apply skip_ws_cons_length in Ew.
    pose proof (skip_ws_length s2) as L2.
    rewrite (IHvals (values ++ [value]) g' (skip_ws s2)) by lia.
    reflexivity.
Qed.

(** ** Parsing a text and parsing its trimmed form *)

Lemma startswith_head (p : str) (a c : N) (t : str) :
  startswith (a :: p) (c :: t) = true -> c = a.
Proof.
  cbn [startswith]. intros H. apply andb_true_iff in H as [H _].
  apply N.eqb_eq in H. now subst.
Qed.

Lemma scan_once_head (f : nat) (c : N) (t : str) (x : json * str) :
  scan_once f (c :: t) = Ok x -> value_start c = true.
Proof.
  destruct f as [|f]; [discriminate|]. cbn [scan_once]. unfold value_start.
  destruct (N.eqb c QUOTE) eqn:Eq.
  { apply N.eqb_eq in Eq. now subst c. }
  destruct (N.eqb c 123) eqn:Eb.
  { apply N.eqb_eq in Eb. now subst c. }
  destruct (N.eqb c 91) eqn:Ea.
  { apply N.eqb_eq in Ea. now subst c. }
  destruct (startswith (lit "null") (c :: t)) eqn:E1.
  { apply startswith_head in E1. now subst c. }
  destruct (startswith (lit "true") (c :: t)) eqn:E2.
  { apply startswith_head in E2. now subst c. }
  destruct (startswith (lit "false") (c :: t)) eqn:E3.
  { apply startswith_head in E3. now subst c. }
  destruct (match_number (c :: t)) as [y|] eqn:En.
  { destruct (match_number_head _ _ _ En) as [->| ->]; reflexivity. }
  destruct (startswith (lit "NaN") (c :: t)) eqn:E4.
  { apply startswith_head in E4. now subst c. }
  destruct (startswith (lit "Infinity") (c :: t)) eqn:E5.
  { apply startswith_head in E5. now subst c. }
  destruct (startswith (lit "-Infinity") (c :: t)) eqn:E6; [|discriminate].
  apply startswith_head in E6. now subst c.
Qed.

Lemma value_start_visible (c : N) :
  value_start c = true ->
  isspace c = false /\ is_json_ws c = false /\ N.eqb 65279 c = false.
Proof.
  unfold value_start. intros H. apply orb_true_iff in H as [H|H].
  - pose proof (isspace_digit c H) as Hs. split; [exact Hs|].
    unfold is_digit in H. apply andb_true_iff in H as [H1 H2].
    apply N.leb_le in H1, H2. split.
    + unfold is_json_ws.
      repeat match goal with
             | |- context [(?a =? ?b)%N] => destruct (N.eqb_spec a b)
             end; try reflexivity; lia.
    + apply N.eqb_neq. lia.
  - cbn [existsb] in H.
    repeat (apply orb_true_iff in H as [H|H];
            [apply N.eqb_eq in H; subst c; repeat split; reflexivity|]).
    discriminate.
Qed.

Lemma json_ws_isspace (c : N) : is_json_ws c = true -> isspace c = true.
Proof.
  unfold is_json_ws. intros H.
  repeat (apply orb_true_iff in H as [H|H]);
    apply N.eqb_eq in H; subst c; reflexivity.
Qed.

Lemma json_ws_all_isspace (w : str) :
  forallb is_json_ws w = true -> forallb isspace w = true.
Proof.
  induction w as [|c w IH]; [easy|]. cbn [forallb]. intros H.
  apply andb_true_iff in H as [H1 H2].
  now rewrite (json_ws_isspace _ H1), IH.
Qed.

Lemma lstrip_spaces (w x : str) :
  forallb isspace w = true -> lstrip (w ++ x) = lstrip x.
Proof.
  induction w as [|c w IH]; [easy|]. cbn [forallb app lstrip]. intros H.
  apply andb_true_iff in H as [H1 H2]. rewrite H1. now apply IH.
Qed.

Lemma forallb_rev_true (p : N -> bool) (l : str) :
  forallb p l = true -> forallb p (rev l) = true.
Proof.
  rewrite !forallb_forall. intros H x Hx. apply H. now apply in_rev.
Qed.

Lemma rstrip_spaces (x : str) (c : N) (w : str) :
  isspace c = false -> forallb isspace w = true ->
  rstrip (x ++ c :: w) = x ++ [c].
Proof.
  intros Hc Hw. unfold rstrip.
  rewrite rev_app_distr. cbn [rev]. rewrite <- app_assoc. cbn [app].
  rewrite lstrip_spaces by now apply forallb_rev_true.
  cbn [lstrip]. rewrite Hc. cbn [rev]. now rewrite rev_involutive.
Qed.

(** A text that parses is, once trimmed, exactly the text of its value,
    and it parses to the same value. *)
Lemma json_loads_strip (raw : str) (data : json) :
  json_loads raw = Ok data -> json_loads (strip raw) = Ok data.
Proof.
  unfold json_loads. destruct (startswith [65279%N] raw); [discriminate|].
  destruct (expecting_value (scan_once (3 * length raw + 3) (skip_ws raw)))
    as [[obj rest]|] eqn:Ev; [|discriminate].
  apply expecting_value_Ok in Ev. cbn [bind].
  destruct (skip_ws rest) as [|] eqn:Er; [|discriminate].
  intros [= ->].
  destruct (proj1 (scanner_local _) _ _ _ Ev) as [V [c [E [Hc K]]]].
  specialize (K [] eq_refl).
  destruct (skip_ws_split raw) as [w [Eraw Hw]].
  destruct (skip_ws_split rest) as [wr [Erest Hwr]].
  rewrite Er, app_nil_r in Erest. subst wr.
  (* the first character of the value *)
  assert (Hhead : exists h t, V ++ [c] = h :: t /\ value_start h = true).
  { destruct V as [|h V'].
    - exists c, []. split; [reflexivity|].
      rewrite E in Ev. now apply scan_once_head in Ev.
    - exists h, (V' ++ [c]). split; [reflexivity|].
      rewrite E in Ev. now apply scan_once_head in Ev. }
  destruct Hhead as [h [t [Eh Hh]]].
  destruct (value_start_visible _ Hh) as [Hh1 [Hh2 Hh3]].
  assert (Es : strip raw = V ++ [c]).
  { unfold strip. rewrite Eraw, E.
    rewrite lstrip_spaces by now apply json_ws_all_isspace.
    replace (V ++ c :: rest) with ((V ++ [c]) ++ rest)
      by now rewrite <- app_assoc.
    rewrite Eh. cbn [app lstrip]. rewrite Hh1.
    change (h :: t ++ rest) with ((h :: t) ++ rest). rewrite <- Eh.
    rewrite <- app_assoc. cbn [app].
    apply rstrip_spaces; [exact Hc | now apply json_ws_all_isspace]. }
  rewrite Es, Eh. cbn [startswith]. rewrite Hh3. cbn [andb].
  cbn [skip_ws]. rewrite Hh2. rewrite <- Eh.
  assert (L : length (V ++ [c]) <= length raw).
  { rewrite Eraw, E, !length_app. cbn [length]. lia. }
  rewrite <- (proj1 (fuel_irrelevant (3 * length raw + 3))
                (3 * length (V ++ [c]) + 3) (V ++ [c])) by lia.
  replace (V ++ [c]) with (V ++ c :: []) by reflexivity.
  rewrite K. reflexivity.
Qed.

Lemma scanstring_no_recursion (f : nat) (s : str) :
  scanstring f s <> Raise RecursionError.
Proof.
  revert s; induction f as [|f IH]; intros s; [discriminate|].
  destruct s as [|c t]; [discriminate|]. cbn [scanstring].
  assert (B : forall (t : str) (g : str * str -> res (str * str)),
             (forall x, g x <> Raise RecursionError) ->
             bind (scanstring f t) g <> Raise RecursionError).
  { intros t0 g Hg. specialize (IH t0).
    destruct (scanstring f t0) as [x|e]; cbn [bind]; [apply Hg | congruence]. }
  destruct (N.eqb c QUOTE); [discriminate|].
  destruct (N.eqb c BACKSLASH).
  - destruct t as [|esc t']; [discriminate|].
    destruct (N.eqb esc 117).
    + destruct (decode_uXXXX t') as [[uni t2]|]; [|discriminate].
      destruct (_ && startswith _ t2).
      * destruct (decode_uXXXX (skipn 2 t2)) as [[uni2 t4]|]; [|discriminate].
        destruct (_ && _); apply B; intros [? ?]; discriminate.
      * apply B; intros [? ?]; discriminate.
    + destruct (backslash_escape esc); [|discriminate].
      apply B; intros [? ?]; discriminate.
  - destruct (c <? 32)%N; [discriminate|].
    apply B; intros [? ?]; discriminate.
Qed.

Lemma expecting_value_no_recursion {A} (m : res A) :
  m <> Raise RecursionError -> expecting_value m <> Raise RecursionError.
Proof. destruct m as [a|[]]; simpl; congruence. Qed.

Lemma scanner_within_fuel (f : nat) :
  within_fuel 1 scan_once f
  /\ within_fuel 3 JSONObject f
  /\ (forall pairs, within_fuel 2 (fun f s => object_pairs f s pairs) f)
  /\ within_fuel 3 JSONArray f
  /\ (forall values, within_fuel 2 (fun f s => array_values f s values) f).
Proof.
  induction f as [|g [IHscan [IHobj [IHpairs [IHarr IHvals]]]]].
  { repeat split; intros; intros s H; lia. }
  split; [|split; [|split; [|split]]].
  - intros s H. destruct s as [|c t]; [discriminate|].
    cbn [length] in H. cbn [scan_once].
    destruct (N.eqb c QUOTE).
    { pose proof (scanstring_no_recursion (length t) t) as X.
      destruct (scanstring (length t) t) as [[? ?]|e]; cbn [bind];
        [discriminate | congruence]. }
    destruct (N.eqb c 123); [apply IHobj; lia|].
    destruct (N.eqb c 91); [apply IHarr; lia|].
    repeat match goal with
           | |- (if ?b then _ else _) <> _ => destruct b; [discriminate|]
           end.
    destruct (match_number (c :: t)) as [[[[i fr] ex] r]|].
    + destruct (is_nil fr && is_nil ex); discriminate.
    + repeat match goal with
             | |- (if ?b then _ else _) <> _ => destruct b; [discriminate|]
             end. discriminate.
  - intros s H. cbn [JSONObject].
    destruct (skip_ws s) as [|c t] eqn:Ew; [discriminate|].
    apply skip_ws_cons_length in Ew.
    destruct (N.eqb c 125); [discriminate|].
    destruct (N.eqb c QUOTE); [apply IHpairs; lia | discriminate].
  - intros pairs s H. cbn [object_pairs].
    pose proof (scanstring_no_recursion (length s) s) as X.
    destruct (scanstring (length s) s) as [[key s1]|e] eqn:Ek;
      cbn [bind]; [|congruence].
    apply scanstring_length in Ek.
    destruct (skip_ws s1) as [|colon s2] eqn:Ew1; [discriminate|].
    apply skip_ws_cons_length in Ew1.
    destruct (N.eqb colon 58); [|discriminate].
    pose proof (skip_ws_length s2) as L2.
    assert (Y : expecting_value (scan_once g (skip_ws s2))
                <> Raise RecursionError).
    { apply expecting_value_no_recursion, IHscan. lia. }
    destruct (expecting_value (scan_once g (skip_ws s2)))
      as [[value s3]|e] eqn:Ev; cbn [bind]; [|congruence].
    assert (L3 : length s3 < length (skip_ws s2)).
    { destruct (scan_once g (skip_ws s2)) as [[v' s']|[]] eqn:Es;
        try discriminate.
      injection Ev as <- <-. now apply scan_once_length in Es. }
    destruct (skip_ws s3) as [|nextchar s4] eqn:Ew3; [discriminate|].
    apply skip_ws_cons_length in Ew3.
    destruct (N.eqb nextchar 125); [discriminate|].
    destruct (N.eqb nextchar 44); [|discriminate].
    destruct (skip_ws s4) as [|q s5] eqn:Ew4; [discriminate|].
    apply skip_ws_cons_length in Ew4.
    destruct (N.eqb q QUOTE); [apply IHpairs; lia | discriminate].
  - intros s H. cbn [JSONArray].
    pose proof (skip_ws_length s) as L.
    destruct (skip_ws s) as [|c t] eqn:Ew.
    + apply IHvals. cbn [length]. lia.
    + destruct (N.eqb c 93); [discriminate|]. apply IHvals. lia.
  - intros values s H. cbn [array_values].
    assert (Y : expecting_value (scan_once g s) <> Raise RecursionError).
    { apply expecting_value_no_recursion, IHscan. lia. }
    destruct (expecting_value (scan_once g s)) as [[value s1]|e] eqn:Ev;
      cbn [bind]; [|congruence].
    assert (L1 : length s1 < length s).
    { destruct (scan_once g s) as [[v' s']|[]] eqn:Es; try discriminate.
      injection Ev as <- <-. now apply scan_once_length in Es. }
    destruct (skip_ws s1) as [|nextchar s2] eqn:Ew; [discriminate|].
    apply skip_ws_cons_length in Ew.
    pose proof (skip_ws_length s2) as L2.
    destruct (N.eqb nextchar 93); [discriminate|].
    destruct (N.eqb nextchar 44); [apply IHvals; lia | discriminate].
Qed.

Ltac raised :=
  let E := fresh in intros E; injection E as <-; unfold scan_err; eauto.

Lemma scanstring_errors (f : nat) (s : str) (e : exn) :
  scanstring f s = Raise e -> exists msg, e = JSONDecodeError msg.
Proof.
  revert s; induction f as [|f IH]; intros s; [intros [= <-]; eauto|].
  destruct s as [|c t]; [intros [= <-]; eauto|]. cbn [scanstring].
  assert (B : forall (t : str) (g : str * str -> res (str * str)),
             (forall x, g x <> Raise e) ->
             bind (scanstring f t) g = Raise e ->
             exists msg, e = JSONDecodeError msg).
  { intros t0 g Hg H. apply bind_Raise in H as [H|[a [_ H]]];
      [now apply (IH t0) | now apply Hg in H]. }
  destruct (N.eqb c QUOTE); [discriminate|].
  destruct (N.eqb c BACKSLASH).
  - destruct t as [|esc t']; [intros [= <-]; eauto|].
    destruct (N.eqb esc 117).
    + destruct (decode_uXXXX t') as [[uni t2]|]; [|intros [= <-]; eauto].
      destruct (_ && startswith _ t2).
      * destruct (decode_uXXXX (skipn 2 t2)) as [[uni2 t4]|];
          [|intros [= <-]; eauto].
        destruct (_ && _); apply B; intros [? ?]; discriminate.
      * apply B; intros [? ?]; discriminate.
    + destruct (backslash_escape esc); [|intros [= <-]; eauto].
      apply B; intros [? ?]; discriminate.
  - destruct (c <? 32)%N; [intros [= <-]; eauto|].
    apply B; intros [? ?]; discriminate.
Qed.

Lemma expecting_value_errors {A} (m : res A) (e : exn) :
  (forall e', m = Raise e' -> scan_err e') ->
  expecting_value m = Raise e -> scan_err e.
Proof.
  intros H. destruct m as [a|e']; [discriminate|].
  specialize (H e' eq_refl).
  destruct e'; cbn [expecting_value]; try raised.
Qed.

Lemma scanner_errors (f : nat) :
  (forall s e, scan_once f s = Raise e -> scan_err e)
  /\ (forall s e, JSONObject f s = Raise e -> scan_err e)
  /\ (forall s pairs e, object_pairs f s pairs = Raise e -> scan_err e)
  /\ (forall s e, JSONArray f s = Raise e -> scan_err e)
  /\ (forall s values e, array_values f s values = Raise e -> scan_err e).
Proof.
  induction f as [|g [IHscan [IHobj [IHpairs [IHarr IHvals]]]]].
  { repeat split; intros; match goal with H : _ = Raise _ |- _ =>
      injection H as <- end; unfold scan_err; eauto. }
  split; [|split; [|split; [|split]]].
  - intros s e. destruct s as [|c t]; [raised|]. cbn [scan_once].
    destruct (N.eqb c QUOTE).
    { intros H. apply bind_Raise in H as [H|[[? ?] [_ H]]]; [|discriminate].
      apply scanstring_errors in H. unfold scan_err. eauto. }
    destruct (N.eqb c 123); [apply IHobj|].
    destruct (N.eqb c 91); [apply IHarr|].
    repeat match goal with
           | |- (if ?b then _ else _) = _ -> _ => destruct b; [discriminate|]
           end.
    destruct (match_number (c :: t)) as [[[[i fr] ex] r]|].
    + destruct (is_nil fr && is_nil ex); discriminate.
    + repeat match goal with
             | |- (if ?b then _ else _) = _ -> _ => destruct b; [discriminate|]
             end. raised.
  - intros s e. cbn [JSONObject].
    destruct (skip_ws s) as [|c t]; [raised|].
    destruct (N.eqb c 125); [discriminate|].
    destruct (N.eqb c QUOTE); [apply IHpairs | raised].
  - intros s pairs e. cbn [object_pairs]. intros H.
    apply bind_Raise in H as [H|[[key s1] [_ H]]].
    { apply scanstring_errors in H. unfold scan_err. eauto. }
    revert H. destruct (skip_ws s1) as [|colon s2]; [raised|].
    destruct (N.eqb colon 58); [|raised].
    intros H. apply bind_Raise in H as [H|[[value s3] [_ H]]].
    { revert H. apply expecting_value_errors. apply IHscan. }
    revert H. destruct (skip_ws s3) as [|nextchar s4]; [raised|].
    destruct (N.eqb nextchar 125); [discriminate|].
    destruct (N.eqb nextchar 44); [|raised].
    destruct (skip_ws s4) as [|q s5]; [raised|].
    destruct (N.eqb q QUOTE); [apply IHpairs | raised].
  - intros s e. cbn [JSONArray].
    destruct (skip_ws s) as [|c t]; [apply IHvals|].
    destruct (N.eqb c 93); [discriminate | apply IHvals].
  - intros s values e. cbn [array_values]. intros H.
    apply bind_Raise in H as [H|[[value s1] [_ H]]].
    { revert H. apply expecting_value_errors. apply IHscan. }
    revert H. destruct (skip_ws s1) as [|nextchar s2]; [raised|].
    destruct (N.eqb nextchar 93); [discriminate|].
    destruct (N.eqb nextchar 44); [apply IHvals | raised].
Qed.

(** [json_loads] is total and fails with [JSONDecodeError] only: the fuel
    of the model is never used up. *)
Lemma json_loads_total (s : str) :
  (exists v, json_loads s = Ok v)
  \/ (exists msg, json_loads s = Raise (JSONDecodeError msg)).
Proof.
  unfold json_loads. destruct (startswith [65279%N] s); [right; eauto|].
  pose proof (skip_ws_length s) as L.
  assert (Y : scan_once (3 * length s + 3) (skip_ws s)
              <> Raise RecursionError).
  { apply (proj1 (scanner_within_fuel (3 * length s + 3))). lia. }
  destruct (scan_once (3 * length s + 3) (skip_ws s)) as [[obj rest]|e] eqn:E.
  - cbn [expecting_value bind].
    destruct (skip_ws rest); [left | right]; eauto.
  - right. apply (proj1 (scanner_errors _)) in E.
    destruct E as [-> | [-> | [msg ->]]]; cbn [expecting_value bind];
      [eauto | congruence | eauto].
Qed.

(** ** The constraints are also sufficient *)







(** ** The delimiter count skips string literals *)




Lemma scan_step_closing (b k : Z) :
  scan_step (in_string b k) QUOTE = mkScan b k false false.
Proof. reflexivity. Qed.





(** ** Every run of the retry loop *)

Section GeneratorRuns.
Variable QualityReport : Type.
Variable score_test_cases : list TestCase -> res QualityReport.
Variable settings : Settings.
Variable user_story : str.
Variable client : LLMClient.



End GeneratorRuns.

(** ** The claims on strip_fences *)

(** C9, as the code has it.  [strip_fences] is idempotent, and its
    result is the one text obtained from the input by deleting every
    fence marker from the left (three backquotes, together with the tag
    json when it follows at once, and no other tag) and then removing
    the white space at the two ends. *)
Theorem strip_fences_idempotent (s : str) :
  strip_fences (strip_fences s) = strip_fences s
  /\ (exists mid, fences_removed s mid /\ trim_of mid (strip_fences s))
  /\ (forall mid out,
         fences_removed s mid -> trim_of mid out -> out = strip_fences s).
Proof.
  split; [apply strip_fences_idem|]. split.
  - exists (remove_fences s). split; [apply remove_fences_spec|].
    apply strip_trim_of.
  - intros mid out Hmid Hout.
    apply fences_removed_unique in Hmid. subst mid.
    now apply trim_of_strip in Hout.
Qed.

(** C9, as stated, fails: of a fence with another language tag only the
    backquotes are removed, the tag stays in the result. *)
Lemma strip_fences_keeps_other_tag :
  strip_fences python_fenced = lit "python" ++ NEWLINE :: lit "x = 1"
  /\ strip_fences python_fenced <> lit "x = 1".
Proof. split; [vm_compute; reflexivity | vm_compute; discriminate]. Qed.

(** C10.  The output of [strip_fences] never contains the fence marker:
    every occurrence is removed, also inside a JSON string literal, so
    that valid JSON whose string value holds a fence is altered before it
    is parsed. *)
Theorem strip_fences_leaves_no_fence :
  (forall s, contains FENCE (strip_fences s) = false)
  /\ json_loads (qlit "['```']") = Ok (JArr [JStr FENCE])
  /\ json_loads (strip_fences (qlit "['```']")) = Ok (JArr [JStr []]).
Proof.
  split; [exact strip_fences_no_fence|]. split; vm_compute; reflexivity.
Qed.

(** ** The claims on the repair *)

Lemma repair_parseable (raw : str) (data : json) :
  json_loads (strip_fences raw) = Ok data ->
  repair_truncated_json raw = Ok data.
Proof. intros H. unfold repair_truncated_json. now rewrite H. Qed.

(** C8, as the code has it.  When the fence-stripped text parses,
    [repair_truncated_json] returns the value of that parse and applies
    no rewrite; for a text without fence marker this is the direct parse
    of the text itself, with or without white space around it. *)
Theorem repair_is_noop_on_parseable (raw : str) (data : json) :
  (json_loads (strip_fences raw) = Ok data ->
   repair_truncated_json raw = Ok data)
  /\ (contains FENCE raw = false ->
      json_loads raw = Ok data ->
      repair_truncated_json raw = Ok data).
Proof.
  split; [apply repair_parseable|].
  intros H1 H2. apply repair_parseable.
  unfold strip_fences. rewrite remove_fences_id by exact H1.
  now apply json_loads_strip.
Qed.

Lemma repair_is_noop_on_parseable_witness :
  json_loads (strip_fences (fenced_json sample_raw)) = Ok sample_data
  /\ repair_truncated_json (fenced_json sample_raw) = Ok sample_data.
Proof.
  assert (H : json_loads (strip_fences (fenced_json sample_raw))
              = Ok sample_data) by (vm_compute; reflexivity).
  split; [exact H|].
  exact (proj1 (repair_is_noop_on_parseable (fenced_json sample_raw)
                  sample_data) H).
Defined.

(** C8, as stated, fails: a text that parses and holds a fence marker in
    a string value is not returned as the direct parse gives it. *)
Lemma repair_alters_parseable_text :
  json_loads (qlit "['```']") = Ok (JArr [JStr FENCE])
  /\ repair_truncated_json (qlit "['```']") = Ok (JArr [JStr []])
  /\ repair_truncated_json (qlit "['```']") <> json_loads (qlit "['```']").
Proof.
  split; [vm_compute; reflexivity|]. split; [vm_compute; reflexivity|].
  vm_compute. discriminate.
Qed.

(** C2.  On a text cut right after the opening brace of an object inside
    an array the count is one brace and one bracket, the bracket is
    closed first, and the rewritten text does not parse, although closing
    the innermost unit first would. *)
Theorem closers_ignore_nesting :
  count_unmatched (lit "[{") = mkScan 1 1 false false
  /\ rewrite_truncated (lit "[{") = lit "[{]}"
  /\ repair_truncated_json (lit "[{")
     = Raise (JSONDecodeError
                "Expecting property name enclosed in double quotes")
  /\ json_loads (lit "[{}]") = Ok (JArr [JObj []]).
Proof. repeat split; vm_compute; reflexivity. Qed.

(** C4.  The repair succeeds on a malformed text and returns a string
    value that occurs nowhere in the input: the comma before the bracket
    inside the string literal is deleted. *)
Theorem repair_alters_string_value :
  let raw := qlit "['a,]b', 'c'" in
  strip_fences raw = raw
  /\ json_loads raw = Raise (JSONDecodeError "Expecting ',' delimiter")
  /\ rewrite_truncated raw = qlit "['a]b']"
  /\ repair_truncated_json raw = Ok (JArr [JStr (lit "a]b")])
  /\ contains (lit "a]b") raw = false.
Proof. repeat split; vm_compute; reflexivity. Qed.

(** ** The claims on parse_and_validate *)

Lemma parse_and_validate_direct (raw stop_reason : str) (data : json)
      (out : LLMOutput) :
  json_loads (strip_fences raw) = Ok data ->
  _validate_structure data = Ok out ->
  parse_and_validate raw stop_reason
  = Ok (out, str_eqb stop_reason LENGTH).
Proof.
  intros Hj Hv. unfold parse_and_validate.
  destruct (str_eqb stop_reason LENGTH); cbn [negb].
  - unfold repair_and_validate.
    rewrite (repair_parseable (strip_fences raw) data)
      by now rewrite strip_fences_idem.
    now rewrite Hv.
  - now rewrite Hj, Hv.
Qed.

(** C1, as the code has it.  When the fence-stripped text parses and
    conforms to the schema, [parse_and_validate] returns the validated
    set of that parse for every truncation signal, with or without a
    markdown fence around the text, and reports no repair whenever the
    signal is not the length signal. *)
Theorem parse_and_validate_on_valid_json (raw stop_reason : str)
        (data : json) (out : LLMOutput) :
  json_loads (strip_fences raw) = Ok data ->
  _validate_structure data = Ok out ->
  forall text, In text [raw; fenced_json raw; fenced_plain raw] ->
    exists repaired,
      parse_and_validate text stop_reason = Ok (out, repaired)
      /\ (stop_reason <> LENGTH -> repaired = false).
Proof.
  intros Hj Hv text Ht.
  exists (str_eqb stop_reason LENGTH). split.
  - apply parse_and_validate_direct with (data := data); [|exact Hv].
    destruct Ht as [<-|[<-|[<-|[]]]]; [exact Hj | |].
    + now rewrite strip_fences_fenced_json.
    + now rewrite strip_fences_fenced_plain.
  - intros Hne. destruct (str_eqb stop_reason LENGTH) eqn:E; [|reflexivity].
    now apply str_eqb_eq in E.
Qed.

Lemma parse_and_validate_on_valid_json_witness :
  exists repaired,
    parse_and_validate (fenced_json sample_raw) (lit "stop")
    = Ok (sample_out, repaired)
    /\ (lit "stop" <> LENGTH -> repaired = false).
Proof.
  apply (parse_and_validate_on_valid_json sample_raw (lit "stop")
           sample_data sample_out).
  - vm_compute; reflexivity.
  - vm_compute; reflexivity.
  - simpl. right. left. reflexivity.
Defined.

(** C1, as stated, fails: with the length signal the direct-parse branch
    is skipped and valid, conformant JSON is reported as repaired. *)
Lemma valid_json_reported_repaired :
  json_loads (strip_fences sample_raw) = Ok sample_data
  /\ _validate_structure sample_data = Ok sample_out
  /\ parse_and_validate sample_raw LENGTH = Ok (sample_out, true)
  /\ parse_and_validate sample_raw LENGTH <> Ok (sample_out, false).
Proof.
  split; [vm_compute; reflexivity|]. split; [vm_compute; reflexivity|].
  split; [vm_compute; reflexivity|]. vm_compute. discriminate.
Qed.

(** ** Witnesses *)

Lemma validation_all_or_nothing_witness :
  _validate_structure sample_data = Ok sample_out
  /\ conforms sample_data sample_out
  /\ exists msg,
      _validate_structure (JObj [(lit "wrong_key", JArr [])])
      = Raise (LLMParseError (StructuralValidationFailed msg)).
Proof.
  assert (H : _validate_structure sample_data = Ok sample_out)
    by (vm_compute; reflexivity).
  split; [exact H|]. split.
  - exact (proj1 validation_all_or_nothing sample_data sample_out H).
  - apply (proj2 validation_all_or_nothing).
    intros out [d [items [Hd [Hg _]]]].
    injection Hd as <-. vm_compute in Hg. discriminate.
Defined.

Lemma generate_retry_policy_witness :
  generate_test_cases unit (fun _ => Ok tt) default_settings
    (lit "As a user I want to log in") flaky_client
  = (Raise LLMTimeoutError, 3).
Proof.
  refine (proj1 (generate_retry_policy unit (fun _ => Ok tt) default_settings
                   (lit "As a user I want to log in") flaky_client 2 _ _)
            LLMTimeoutError _ _).
  - vm_compute. lia.
  - intros i Hi.
    destruct i as [|[|i]]; [| |lia];
      eexists; exists garbage; split; vm_compute; reflexivity.
  - left. reflexivity.
  - reflexivity.
Defined.

(** * Further properties of the code *)

(** ** validator.py *)



Lemma subsequence_refl (s : str) : subsequence s s.
Proof. induction s; now constructor. Qed.









(** ** validator.py: parse_and_validate *)





(** ** models.py *)



(** ** generator.py *)







